(** * anonymize-it: the helpers of [anonymize_it/utils.py]

    A shallow embedding of the pure helpers of [utils.py]
    ([flatten_nest], [parse_config], [batch], [contains_secret],
    [contains_keywords], [hash_value]) and the properties the
    specification states about them.

    Conventions.  A Python [str] is a [string]: the bytes of its UTF-8
    encoding, so that [str.encode()] is the list of its bytes and
    [a in b] is the substring test on them.  A Python [dict] keeps its
    insertion order: it is an association list whose keys are pairwise
    distinct, [d[k] = v] overwrites in place or appends.  Floats are left
    out of the scalars. *)

From Stdlib Require Import List String Ascii ZArith NArith Lia Bool Arith.
From Stdlib Require Import DecimalString.
From Equations Require Import Equations.
From Equations.Prop Require Import Logic.
Import ListNotations.
Open Scope string_scope.

(* ===================================================================== *)
(** * Python strings *)
(* ===================================================================== *)

Module PyStr.

(** [bool(s)] of a [str]: false exactly for the empty string. *)
Definition truthy (s : string) : bool :=
  match s with EmptyString => false | String _ _ => true end.

(** [s.startswith(p)]. *)
Fixpoint starts_with (p s : string) : bool :=
  match p, s with
  | EmptyString, _ => true
  | String _ _, EmptyString => false
  | String a p', String b s' => Ascii.eqb a b && starts_with p' s'
  end.

(** [w in s] for two [str]: [w] occurs in [s] as a contiguous run. *)
Fixpoint contains (w s : string) : bool :=
  starts_with w s ||
  match s with
  | EmptyString => false
  | String _ s' => contains w s'
  end.

(** [sep.join(parts)]. *)
Fixpoint join (sep : string) (parts : list string) : string :=
  match parts with
  | [] => ""
  | [p] => p
  | p :: ps => p ++ sep ++ join sep ps
  end.

(** The scan of [s.split(sep)] for a non-empty [sep]: [cur] holds the
    characters of the segment being read, [skip] the number of characters
    of a separator just recognised that are still to be passed over. *)
Fixpoint split_from (sep : string) (skip : nat) (cur s : string) : list string :=
  match s with
  | EmptyString => [cur]
  | String a s' =>
      match skip with
      | S n => split_from sep n cur s'
      | O =>
          if starts_with sep s
          then cur :: split_from sep (String.length sep - 1) "" s'
          else split_from sep 0 (cur ++ String a "") s'
      end
  end.

(** [s.split(sep)].  Python raises [ValueError] on an empty separator;
    here the string is then kept whole. *)
Definition split (sep s : string) : list string :=
  match sep with
  | EmptyString => [s]
  | String _ _ => split_from sep 0 "" s
  end.

End PyStr.

(* ===================================================================== *)
(** * Python values *)
(* ===================================================================== *)

Inductive scalar : Type :=
| SStr (s : string)
| SInt (n : Z)
| SBool (b : bool)
| SNone.

#[local] Set Warnings "-register-all".

(** A value as [json] loads it: a scalar, a list, or a mapping with
    string keys in insertion order. *)
Inductive value : Type :=
| VScalar (s : scalar)
| VList (l : list value)
| VDict (d : list (string * value)).

Abbreviation dict := (list (string * value)).

Module PyDict.

(** [d.get(k)]: [None] when the key is absent. *)
Fixpoint get (k : string) (d : dict) : option value :=
  match d with
  | [] => None
  | (k', v) :: rest => if String.eqb k k' then Some v else get k rest
  end.

(** [d[k] = v]: an existing key keeps its place, a new one goes last. *)
Fixpoint set (k : string) (v : value) (d : dict) : dict :=
  match d with
  | [] => [(k, v)]
  | (k', v') :: rest =>
      if String.eqb k k' then (k, v) :: rest else (k', v') :: set k v rest
  end.

(** [dict(items)]: the pairs are stored from left to right, a later
    pair overwriting an earlier one with the same key. *)
Definition of_items (items : list (string * value)) : dict :=
  fold_left (fun d kv => set (fst kv) (snd kv) d) items [].

(** [d.update(items)]: the pairs are stored into [d] from left to right. *)
Definition update (d : dict) (items : list (string * value)) : dict :=
  fold_left (fun d kv => set (fst kv) (snd kv) d) items d.

Definition keys (d : dict) : list string := map fst d.

End PyDict.

(* ===================================================================== *)
(** * FlattenCodec: [flatten_nest] *)
(* ===================================================================== *)

Module Flatten.

(** [new_key = parent_key + sep + k if parent_key else k]. *)
Definition new_key (parent_key sep k : string) : string :=
  if PyStr.truthy parent_key then (parent_key ++ sep) ++ k else k.

(** The items one pair [(k, v)] of the loop adds to [items], [nk] being
    its [new_key]: the items of the recursive call when [v] is a mapping,
    the pair [(nk, v)] otherwise. *)
Fixpoint flatten_entry (sep nk : string) (v : value) {struct v}
  : list (string * value) :=
  match v with
  | VDict d =>
      PyDict.of_items
        (flat_map (fun '(k, v') => flatten_entry sep (new_key nk sep k) v') d)
  | _ => [(nk, v)]
  end.

(** [flatten_nest(d, parent_key, sep)]. *)
Definition flatten_nest (d : dict) (parent_key sep : string) : dict :=
  PyDict.of_items
    (flat_map (fun '(k, v) => flatten_entry sep (new_key parent_key sep k) v) d).

(** The key the successive calls build for the leaf at [path] below a
    mapping flattened with [parent_key]. *)
Definition path_key (sep parent_key : string) (path : list string) : string :=
  fold_left (fun acc k => new_key acc sep k) path parent_key.

End Flatten.

(* ===================================================================== *)
(** * FlattenCodec: the way back *)
(* ===================================================================== *)

Module Unflatten.

(** Modelled from the spec: [utils.py] has no inverse of [flatten_nest];
    the specification speaks of reconstructing "the nested structure from
    the surviving flat paths".  [insert_path] stores a leaf under the path
    [parts], creating the mappings on the way ([d.setdefault(p, {})]); a
    value met on the way that is not a mapping is replaced by a fresh
    one. *)
Fixpoint insert_path (parts : list string) (v : value) (d : dict) : dict :=
  match parts with
  | [] => d
  | [p] => PyDict.set p v d
  | p :: ps =>
      let sub := match PyDict.get p d with
                 | Some (VDict d') => d'
                 | _ => []
                 end in
      PyDict.set p (VDict (insert_path ps v sub)) d
  end.

(** Modelled from the spec: [unflatten(flat, sep)] splits every flat key
    at the separator and stores its value under the resulting path, in
    the order of the flat mapping. *)
Definition unflatten (flat : dict) (sep : string) : dict :=
  fold_left (fun acc '(path, v) => insert_path (PyStr.split sep path) v acc)
            flat [].

End Unflatten.

(* ===================================================================== *)
(** * Shapes of records *)
(* ===================================================================== *)

Module Record.

Definition is_mapping (v : value) : bool :=
  match v with VDict _ => true | _ => false end.

(** [P] holds of [v] when [v] is a mapping, and of every mapping nested
    in it through mappings (lists are leaves and are not looked into). *)
Fixpoint each_mapping (P : dict -> bool) (v : value) {struct v} : bool :=
  match v with
  | VDict d => P d && forallb (fun '(_, v') => each_mapping P v') d
  | _ => true
  end.

Fixpoint distinct (l : list string) : bool :=
  match l with
  | [] => true
  | x :: rest => negb (existsb (String.eqb x) rest) && distinct rest
  end.

Definition keys_distinct (d : dict) : bool := distinct (PyDict.keys d).

Definition keys_avoid (sep : string) (d : dict) : bool :=
  forallb (fun k => negb (PyStr.contains sep k)) (PyDict.keys d).

Definition nonempty (d : dict) : bool :=
  match d with [] => false | _ => true end.

(** The keys of one mapping are pairwise distinct, at every level: what
    makes the association list a Python [dict]. *)
Definition keys_unique (r : dict) : bool :=
  each_mapping keys_distinct (VDict r).

(** The separator occurs in no key, at any level. *)
Definition sep_free (sep : string) (r : dict) : bool :=
  each_mapping (keys_avoid sep) (VDict r).

(** No mapping nested in the record is empty. *)
Definition no_empty_mapping (r : dict) : bool :=
  forallb (fun '(_, v) => each_mapping nonempty v) r.

(** The empty string, when it is a top-level key, is bound to a leaf. *)
Definition empty_key_is_leaf (r : dict) : bool :=
  forallb (fun '(k, v) => PyStr.truthy k || negb (is_mapping v)) r.

(** Prefixing the paths of a list of leaves with a key. *)
Definition under (k : string) (l : list (list string * value)) :=
  map (fun '(p, x) => (k :: p, x)) l.

(** The leaves of a value with their paths below it, in the order of the
    traversal. *)
Fixpoint leaves_entry (v : value) {struct v} : list (list string * value) :=
  match v with
  | VDict d => flat_map (fun '(k, v') => under k (leaves_entry v')) d
  | _ => [([], v)]
  end.

Definition leaves (d : dict) : list (list string * value) :=
  leaves_entry (VDict d).

(** What a path adds to the key of the mapping it starts from. *)
Fixpoint suffix (sep : string) (p : list string) : string :=
  match p with
  | [] => ""
  | k :: p' => sep ++ k ++ suffix sep p'
  end.

(** Storing one leaf under its path. *)
Definition store (acc : dict) (px : list string * value) : dict :=
  Unflatten.insert_path (fst px) (snd px) acc.

(** Storing the leaves of [v] under a new key [k] appends [(k, v)]. *)
Definition rebuilds (v : value) : Prop :=
  each_mapping keys_distinct v = true ->
  each_mapping nonempty v = true ->
  forall k acc,
    ~ In k (PyDict.keys acc) ->
    fold_left store (under k (leaves_entry v)) acc = (acc ++ [(k, v)])%list.

Definition sample_record : dict :=
  [("user", VDict [("email", VScalar (SStr "a@b.com"));
                   ("name", VScalar (SStr "Al"));
                   ("", VDict [("id", VScalar (SInt 7))])]);
   ("tags", VList [VScalar (SStr "secret"); VScalar (SStr "ok")]);
   ("", VScalar SNone);
   ("n", VScalar (SInt 1))].

End Record.

(* ===================================================================== *)
(** * ConfigModel: [parse_config] *)
(* ===================================================================== *)

Module Config.

(** [bool(v)]: [None], [False], zero and empty strings, lists and
    mappings are false. *)
Definition truthy (v : value) : bool :=
  match v with
  | VScalar (SStr s) => PyStr.truthy s
  | VScalar (SInt n) => negb (Z.eqb n 0)
  | VScalar (SBool b) => b
  | VScalar SNone => false
  | VList l => match l with [] => false | _ => true end
  | VDict d => match d with [] => false | _ => true end
  end.

Inductive exn : Type :=
| ConfigParserError (msg : string)
| AttributeError (msg : string).

(** A computation that may warn and may raise: the warnings issued so
    far, in order, and how it ended. *)
Definition M (A : Type) : Type := (list string * (exn + A))%type.

Definition ret {A} (a : A) : M A := ([], inr a).
Definition raise {A} (e : exn) : M A := ([], inl e).
Definition warn (msg : string) : M unit := ([msg], inr tt).
Definition bind {A B} (m : M A) (f : A -> M B) : M B :=
  match m with
  | (w, inl e) => (w, inl e)
  | (w, inr a) => let '(w', r) := f a in ((w ++ w')%list, r)
  end.
Definition when (b : bool) (m : M unit) : M unit := if b then m else ret tt.

Notation "x <- m ;; k" := (bind m (fun x => k))
  (at level 61, m at next level, right associativity).
Notation "m ;;; k" := (bind m (fun _ => k))
  (at level 61, right associativity).

(** [d.get(k)] on a mapping: Python's [None] when the key is absent. *)
Definition dict_get (k : string) (d : dict) : value :=
  match PyDict.get k d with
  | Some v => v
  | None => VScalar SNone
  end.

(** [type(v).__name__]. *)
Definition type_name (v : value) : string :=
  match v with
  | VScalar (SStr _) => "str"
  | VScalar (SInt _) => "int"
  | VScalar (SBool _) => "bool"
  | VScalar SNone => "NoneType"
  | VList _ => "list"
  | VDict _ => "dict"
  end.

(** [v.get(k)]: only a mapping has the method. *)
Definition method_get (v : value) (k : string) : M value :=
  match v with
  | VDict d => ret (dict_get k d)
  | _ => raise (AttributeError
                  ("'" ++ type_name v ++ "' object has no attribute 'get'"))
  end.

(** The named tuple [Config]. *)
Record Config : Type := {
  source : value;
  dest : value;
  anonymization_type : value;
  masked_fields : value;
  suppressed_fields : value;
  include_rest : value;
  sensitive : value
}.

Definition source_undefined :=
  "source error: source not defined. Please check config.".
Definition dest_undefined :=
  "destination error: dest not defined. Please check config.".
Definition source_type_undefined :=
  "source error: source type not defined. Please check config.".
Definition dest_type_undefined :=
  "destination error: dest type not defined. Please check config.".
Definition no_masked_fields :=
  "no masked fields included in config. No data will be anonymized".

Definition parse_config (config : dict) : M Config :=
  let source := dict_get "source" config in
  let dest := dict_get "dest" config in
  let anonymization_type := dict_get "anonymization" config in
  let masked_fields := dict_get "include" config in
  let suppressed_fields := dict_get "exclude" config in
  let include_rest := dict_get "include_rest" config in
  let sensitive := dict_get "sensitive" config in
  when (negb (truthy source)) (raise (ConfigParserError source_undefined)) ;;;
  when (negb (truthy dest)) (raise (ConfigParserError dest_undefined)) ;;;
  when (negb (truthy masked_fields)) (warn no_masked_fields) ;;;
  reader_type <- method_get source "type" ;;
  writer_type <- method_get dest "type" ;;
  when (negb (truthy reader_type))
       (raise (ConfigParserError source_type_undefined)) ;;;
  when (negb (truthy writer_type))
       (raise (ConfigParserError dest_type_undefined)) ;;;
  ret {| source := source;
         dest := dest;
         anonymization_type := anonymization_type;
         masked_fields := masked_fields;
         suppressed_fields := suppressed_fields;
         include_rest := include_rest;
         sensitive := sensitive |}.

Definition warnings {A} (m : M A) : list string := fst m.
Definition outcome {A} (m : M A) : exn + A := snd m.

(** The [Config] made of the entries of [config], [None] for an absent
    key. *)
Definition config_of (config : dict) : Config :=
  {| source := dict_get "source" config;
     dest := dict_get "dest" config;
     anonymization_type := dict_get "anonymization" config;
     masked_fields := dict_get "include" config;
     suppressed_fields := dict_get "exclude" config;
     include_rest := dict_get "include_rest" config;
     sensitive := dict_get "sensitive" config |}.

(** The four checks, in the order the code makes them: the message of the
    first one that fails. *)
Definition first_failure (config : dict) : option string :=
  let source := dict_get "source" config in
  let dest := dict_get "dest" config in
  if negb (truthy source) then Some source_undefined
  else if negb (truthy dest) then Some dest_undefined
  else match source, dest with
       | VDict s, VDict d =>
           if negb (truthy (dict_get "type" s)) then Some source_type_undefined
           else if negb (truthy (dict_get "type" d)) then Some dest_type_undefined
           else None
       | _, _ => None
       end.

(** A configuration with a source and a destination of the given types. *)
Definition es_config (source_type dest_type : string) (rest : dict) : dict :=
  ([("source", VDict [("type", VScalar (SStr source_type))]);
    ("dest", VDict [("type", VScalar (SStr dest_type))])] ++ rest)%list.

Ltac case_truthy v :=
  let E := fresh "E" in destruct (truthy v) eqn:E.

End Config.

(* ===================================================================== *)
(** * BatchIterator: [batch] *)
(* ===================================================================== *)

Module Batch.
Section Batch.
Context {A : Type}.

(** [sourceiter = iter(iterable)]: the elements not yet taken.  The
    generator and every group it has yielded read from this one
    cursor. *)
Definition cursor : Type := list A.

(** A yielded group [chain([next(batchiter)], batchiter)]: the element
    fetched when the group was made, until it is handed out, and the
    number of elements [islice(sourceiter, size)] may still take. *)
Record group : Type := { prefetched : option A; budget : nat }.

(** One turn of the [while True] loop, run when the consumer asks the
    generator for its next group: [next(batchiter)] takes one element
    from the cursor; when it has none, or [size] is 0, the
    [StopIteration] makes the generator return. *)
Definition next_group (size : nat) (src : cursor) : option group * cursor :=
  match size, src with
  | S n, x :: rest => (Some {| prefetched := Some x; budget := n |}, rest)
  | _, _ => (None, src)
  end.

(** [next(group)]: the pre-fetched element first, then what [islice]
    takes from the cursor; [None] is [StopIteration]. *)
Definition group_next (g : group) (src : cursor) : option A * group * cursor :=
  match prefetched g with
  | Some x => (Some x, {| prefetched := None; budget := budget g |}, src)
  | None =>
      match budget g, src with
      | S n, y :: rest => (Some y, {| prefetched := None; budget := n |}, rest)
      | _, _ => (None, g, src)
      end
  end.

(** The consumer calls [next(group)] up to [n] times and stops at the
    first [StopIteration]. *)
Fixpoint take (n : nat) (g : group) (src : cursor) : list A * group * cursor :=
  match n with
  | O => ([], g, src)
  | S n' =>
      match group_next g src with
      | (Some x, g', src') =>
          let '(xs, g'', src'') := take n' g' src' in (x :: xs, g'', src'')
      | (None, g', src') => ([], g', src')
      end
  end.

(** The most a group can still hand out. *)
Definition pending (g : group) : nat :=
  (match prefetched g with Some _ => 1 | None => 0 end) + budget g.

(** [list(group)]: the group consumed to its end. *)
Definition list_group (g : group) (src : cursor) : list A * group * cursor :=
  take (pending g) g src.

(** The generator resumed once for each demand of a consumer that asks
    for one group after the other and calls [next] on the [i]-th group
    [demands[i]] times before asking for the next one; the result lists
    what it got from each group. *)
Fixpoint resume (size : nat) (demands : list nat) (src : cursor) : list (list A) :=
  match demands with
  | [] => []
  | n :: rest =>
      match next_group size src with
      | (Some g, src') =>
          let '(xs, _, src'') := take n g src' in xs :: resume size rest src''
      | (None, _) => []
      end
  end.

(** [batch(iterable, size)] in the hands of such a consumer:
    [sourceiter = iter(iterable)], then the loop. *)
Definition batch (iterable : list A) (size : nat) (demands : list nat)
  : list (list A) :=
  resume size demands iterable.

Lemma take_cursor (n : nat) :
  forall g src, List.length (snd (take n g src)) <= List.length src.
Proof.
  induction n as [|n IH]; intros g src; cbn [take]; [cbn; lia|].
  unfold group_next.
  destruct (prefetched g) as [x|].
  - specialize (IH {| prefetched := None; budget := budget g |} src).
    destruct (take n _ src) as [[xs g''] src'']. exact IH.
  - destruct (budget g) as [|b]; [cbn; lia|].
    destruct src as [|y rest]; [cbn; lia|].
    specialize (IH {| prefetched := None; budget := b |} rest).
    destruct (take n _ rest) as [[xs g''] src'']. cbn in *. lia.
Qed.

(** [for group in batch(iterable, size): groups.append(list(group))]:
    every group is consumed to its end before the next is asked for,
    until the generator returns. *)
Equations? consume (size : nat) (src : cursor) : list (list A)
  by wf (List.length src) lt :=
  consume size src with inspect (next_group size src) := {
    | exist _ (Some g, src') E =>
        fst (fst (list_group g src')) :: consume size (snd (list_group g src'));
    | exist _ (None, _) _ => [] }.
Proof.
  unfold next_group in E.
  destruct size as [|k]; [discriminate|].
  destruct src as [|x rest]; [discriminate|].
  injection E as <- <-.
  pose proof (take_cursor (pending {| prefetched := Some x; budget := k |})
                          {| prefetched := Some x; budget := k |} rest).
  unfold list_group. cbn [List.length]. lia.
Qed.

End Batch.
End Batch.

(** Groups that are asked for first and read afterwards. *)
Module BatchRead.
Import Batch.
#[local] Open Scope list_scope.

Section BatchRead.
Context {A : Type}.

(** [groups = list(islice(batch(iterable, size), n))]: the consumer asks
    the generator for up to [n] groups and reads none of them; the groups
    made, and the cursor they share. *)
Fixpoint request (size n : nat) (src : @cursor A) : list (@group A) * @cursor A :=
  match n with
  | O => ([], src)
  | S n' =>
      match next_group size src with
      | (Some g, src') =>
          let '(gs, src'') := request size n' src' in (g :: gs, src'')
      | (None, src') => ([], src')
      end
  end.

(** [[list(g) for g in groups]]: the groups read to their end one after
    the other, from the cursor they share. *)
Fixpoint read_all (groups : list (@group A)) (src : @cursor A)
  : list (list A) * @cursor A :=
  match groups with
  | [] => ([], src)
  | g :: rest =>
      let '(xs, _, src') := list_group g src in
      let '(xss, src'') := read_all rest src' in
      (xs :: xss, src'')
  end.

End BatchRead.
End BatchRead.

(* ===================================================================== *)
(** * FieldClassifier: [contains_secret] and [contains_keywords] *)
(* ===================================================================== *)

Module Classifier.
#[local] Open Scope list_scope.

(** A field value is any value of a record: a scalar, a list or a
    mapping.  The predicates test [type(field_value) == list] and hand the
    value, or each element of the list, to [regex.search] and to
    [word in f]. *)

(** What a predicate returns: [True], [False], or [None] when the body
    runs to its end without a [return]. *)
Inductive answer : Type := RTrue | RFalse | RNone.

(** [bool(answer)]. *)
Definition truthy (a : answer) : bool :=
  match a with RTrue => true | _ => false end.

(** [regex.search] on a value that is not a [str], and [word in f] on a
    number, a boolean or [None], raise [TypeError]. *)
Inductive exn : Type := TypeError.

(** [isinstance(v, str)]. *)
Definition is_str (v : value) : bool :=
  match v with VScalar (SStr _) => true | _ => false end.

(** The list of [str] values [l]. *)
Definition strs (l : list string) : list value :=
  map (fun s => VScalar (SStr s)) l.

Section Regex.
(** A compiled pattern and whether [regex.search(s)] finds a match in the
    [str] [s] (a match object is truthy, [None] is not). *)
Variable regex : Type.
Variable search : regex -> string -> bool.

(** [regex.search(f)] for any value [f]. *)
Definition search_value (r : regex) (f : value) : exn + bool :=
  match f with
  | VScalar (SStr s) => inr (search r s)
  | _ => inl TypeError
  end.

(** [for f in field_value: if regex.search(f): return True]. *)
Fixpoint search_each (r : regex) (l : list value) : exn + answer :=
  match l with
  | [] => inr RNone
  | f :: rest =>
      match search_value r f with
      | inl e => inl e
      | inr true => inr RTrue
      | inr false => search_each r rest
      end
  end.

Definition contains_secret (r : regex) (field_value : value) : exn + answer :=
  match field_value with
  | VList l => search_each r l
  | _ =>
      match search_value r field_value with
      | inl e => inl e
      | inr true => inr RTrue
      | inr false => inr RNone
      end
  end.
End Regex.

(** [word == e] for a [str] [word]: equal strings; a [str] equals no
    value of another type. *)
Definition str_eq (word : string) (e : value) : bool :=
  match e with VScalar (SStr s) => String.eqb word s | _ => false end.

(** [word in f] for a [str] [word]: a substring of a [str], an item of a
    list, a key of a mapping; anything else is not iterable. *)
Definition py_in (word : string) (f : value) : exn + bool :=
  match f with
  | VScalar (SStr s) => inr (PyStr.contains word s)
  | VScalar _ => inl TypeError
  | VList l => inr (existsb (str_eq word) l)
  | VDict d => inr (existsb (String.eqb word) (PyDict.keys d))
  end.

(** [any(word in f for f in field_value)]: the tests are made in order,
    up to the first that holds or raises. *)
Fixpoint any_in (word : string) (l : list value) : exn + bool :=
  match l with
  | [] => inr false
  | f :: rest =>
      match py_in word f with
      | inl e => inl e
      | inr true => inr true
      | inr false => any_in word rest
      end
  end.

(** [for word in keywords: if any(word in f for f in field_value):
    return True]. *)
Fixpoint keyword_each (keywords : list string) (l : list value) : exn + answer :=
  match keywords with
  | [] => inr RNone
  | word :: rest =>
      match any_in word l with
      | inl e => inl e
      | inr true => inr RTrue
      | inr false => keyword_each rest l
      end
  end.

(** [any(word in field_value for word in keywords)]. *)
Fixpoint any_word (keywords : list string) (field_value : value) : exn + bool :=
  match keywords with
  | [] => inr false
  | word :: rest =>
      match py_in word field_value with
      | inl e => inl e
      | inr true => inr true
      | inr false => any_word rest field_value
      end
  end.

(** [keywords] is a list of [str], or [None]. *)
Definition contains_keywords (field_value : value)
           (keywords : option (list string)) : exn + answer :=
  match keywords with
  | None | Some [] => inr RFalse
  | Some words =>
      match field_value with
      | VList l => keyword_each words l
      | _ =>
          match any_word words field_value with
          | inl e => inl e
          | inr true => inr RTrue
          | inr false => inr RNone
          end
      end
  end.

(** The keywords given, none when the list is absent. *)
Definition words_of (keywords : option (list string)) : list string :=
  match keywords with Some ws => ws | None => [] end.

(** The values the tests are made on: the elements of a list, or the
    value itself. *)
Definition elements (v : value) : list value :=
  match v with VList l => l | _ => [v] end.

(** [word] occurs in [f] as a contiguous run. *)
Definition occurs_in (word f : string) : Prop :=
  exists a b, f = (a ++ word ++ b)%string.

End Classifier.

(* ===================================================================== *)
(** * SHA-256 (FIPS 180-4), as [hashlib.sha256] computes it *)
(* ===================================================================== *)

Module Sha256.
#[local] Open Scope Z_scope.

Definition mask32 : Z := 0xffffffff.
Definition w32 (x : Z) : Z := Z.land x mask32.
Definition add32 (x y : Z) : Z := w32 (x + y).
Definition not32 (x : Z) : Z := Z.lxor x mask32.
Definition rotr (n x : Z) : Z :=
  Z.lor (Z.shiftr x n) (w32 (Z.shiftl x (32 - n))).

Definition Ch (x y z : Z) : Z := Z.lxor (Z.land x y) (Z.land (not32 x) z).
Definition Maj (x y z : Z) : Z :=
  Z.lxor (Z.lxor (Z.land x y) (Z.land x z)) (Z.land y z).
Definition Sigma0 (x : Z) : Z := Z.lxor (Z.lxor (rotr 2 x) (rotr 13 x)) (rotr 22 x).
Definition Sigma1 (x : Z) : Z := Z.lxor (Z.lxor (rotr 6 x) (rotr 11 x)) (rotr 25 x).
Definition sigma0 (x : Z) : Z := Z.lxor (Z.lxor (rotr 7 x) (rotr 18 x)) (Z.shiftr x 3).
Definition sigma1 (x : Z) : Z := Z.lxor (Z.lxor (rotr 17 x) (rotr 19 x)) (Z.shiftr x 10).

(** The constants are read off the first prime numbers: the first 32
    bits of the fractional part of a cube root, or of a square root. *)
Definition is_prime (n : Z) : bool :=
  forallb (fun d => negb (n mod Z.of_nat d =? 0)) (seq 2 (Z.to_nat n - 2)).

Definition first_primes (n : nat) : list Z :=
  firstn n (filter is_prime (map Z.of_nat (seq 2 400))).

(** The integer cube root, bit by bit from the top. *)
Fixpoint cube_root_bits (n : nat) (x acc : Z) : Z :=
  match n with
  | O => acc
  | S n' =>
      let next := acc + 2 ^ Z.of_nat n' in
      if next * next * next <=? x then cube_root_bits n' x next
      else cube_root_bits n' x acc
  end.

Definition frac_cube_root (p : Z) : Z :=
  w32 (cube_root_bits 40 (p * 2 ^ 96) 0).

Definition frac_square_root (p : Z) : Z := w32 (Z.sqrt (p * 2 ^ 64)).

Definition K : list Z := Eval vm_compute in map frac_cube_root (first_primes 64).

(** The eight working variables, and the hash value between blocks. *)
Record state : Type := State {
  sa : Z; sb : Z; sc : Z; sd : Z; se : Z; sf : Z; sg : Z; sh : Z
}.

Definition state_of_words (ws : list Z) : state :=
  let w i := nth i ws 0 in
  State (w 0%nat) (w 1%nat) (w 2%nat) (w 3%nat)
        (w 4%nat) (w 5%nat) (w 6%nat) (w 7%nat).

Definition H0 : state :=
  Eval vm_compute in state_of_words (map frac_square_root (first_primes 8)).

(** The message followed by the bit 1, zeros, and its length in bits on
    eight bytes, a multiple of 64 bytes in all. *)
Definition be_bytes (n : nat) (x : Z) : list Z :=
  map (fun i => Z.land (Z.shiftr x (8 * Z.of_nat i)) 0xff) (rev (seq 0 n)).

Definition pad (msg : list Z) : list Z :=
  let len := Z.of_nat (List.length msg) in
  let zeros := Z.to_nat ((55 - len) mod 64) in
  (msg ++ [0x80] ++ repeat 0 zeros ++ be_bytes 8 (8 * len))%list.

(** Big-endian words of a block of bytes. *)
Fixpoint words (bytes : list Z) : list Z :=
  match bytes with
  | b0 :: b1 :: b2 :: b3 :: rest =>
      (Z.shiftl b0 24 + Z.shiftl b1 16 + Z.shiftl b2 8 + b3) :: words rest
  | _ => []
  end.

(** The message schedule: [n] more words after the ones of [w]. *)
Fixpoint schedule (n : nat) (w : list Z) : list Z :=
  match n with
  | O => w
  | S n' =>
      let t := List.length w in
      let at_ (back : nat) := nth (t - back) w 0 in
      schedule n' (w ++ [add32 (add32 (sigma1 (at_ 2%nat)) (at_ 7%nat))
                               (add32 (sigma0 (at_ 15%nat)) (at_ 16%nat))])%list
  end.

Definition round (s : state) (kw : Z * Z) : state :=
  let '(k, w) := kw in
  let t1 := add32 (add32 (add32 (sh s) (Sigma1 (se s)))
                         (add32 (Ch (se s) (sf s) (sg s)) k)) w in
  let t2 := add32 (Sigma0 (sa s)) (Maj (sa s) (sb s) (sc s)) in
  State (add32 t1 t2) (sa s) (sb s) (sc s) (add32 (sd s) t1) (se s) (sf s) (sg s).

Definition compress (h : state) (block : list Z) : state :=
  let s := fold_left round (combine K (schedule 48 (words block))) h in
  State (add32 (sa h) (sa s)) (add32 (sb h) (sb s))
        (add32 (sc h) (sc s)) (add32 (sd h) (sd s))
        (add32 (se h) (se s)) (add32 (sf h) (sf s))
        (add32 (sg h) (sg s)) (add32 (sh h) (sh s)).

(** The blocks of 64 bytes, one after the other; [fuel] bounds their
    number. *)
Fixpoint blocks (fuel : nat) (h : state) (bytes : list Z) : state :=
  match fuel, bytes with
  | S fuel', _ :: _ => blocks fuel' (compress h (firstn 64 bytes)) (skipn 64 bytes)
  | _, _ => h
  end.

Definition sha256 (msg : list Z) : state :=
  let padded := pad msg in
  blocks (List.length padded) H0 padded.

Definition hex_digits : list ascii := list_ascii_of_string "0123456789abcdef".

Definition hex_digit (x : Z) : ascii :=
  nth (Z.to_nat (Z.land x 0xf)) hex_digits "0"%char.

(** A word as eight hexadecimal digits. *)
Definition hex_word (x : Z) (tail : string) : string :=
  String (hex_digit (Z.shiftr x 28)) (String (hex_digit (Z.shiftr x 24))
  (String (hex_digit (Z.shiftr x 20)) (String (hex_digit (Z.shiftr x 16))
  (String (hex_digit (Z.shiftr x 12)) (String (hex_digit (Z.shiftr x 8))
  (String (hex_digit (Z.shiftr x 4)) (String (hex_digit x) tail))))))).

(** [.hexdigest()]. *)
Definition hexdigest (s : state) : string :=
  hex_word (sa s) (hex_word (sb s) (hex_word (sc s) (hex_word (sd s)
  (hex_word (se s) (hex_word (sf s) (hex_word (sg s) (hex_word (sh s) ""))))))).

(** A word of 32 bits. *)
Definition word32 (x : Z) : Prop := 0 <= x < 2 ^ 32.

Definition words32 (s : state) : Prop :=
  word32 (sa s) /\ word32 (sb s) /\ word32 (sc s) /\ word32 (sd s) /\
  word32 (se s) /\ word32 (sf s) /\ word32 (sg s) /\ word32 (sh s).

End Sha256.

(* ===================================================================== *)
(** * HashEngine: [hash_value] *)
(* ===================================================================== *)

Module Hash.

(** What [f"{x}"] puts for a scalar: [str(x)]. *)
Definition format (x : scalar) : string :=
  match x with
  | SStr s => s
  | SInt n => NilZero.string_of_int (Z.to_int n)
  | SBool true => "True"
  | SBool false => "False"
  | SNone => "None"
  end.

(** [s.encode()]: the bytes of the string. *)
Definition encode (s : string) : list Z :=
  map (fun a => Z.of_N (N_of_ascii a)) (list_ascii_of_string s).

(** [f"{hashkey}:{field_value}"]. *)
Definition keyed (hashkey field_value : scalar) : string :=
  format hashkey ++ ":" ++ format field_value.

Definition hash_value (hashkey field_value : scalar) : string :=
  Sha256.hexdigest (Sha256.sha256 (encode (keyed hashkey field_value))).

End Hash.

(* ===================================================================== *)
(** * Python strings: [strip] *)
(* ===================================================================== *)

Module PyStrip.
#[local] Open Scope nat_scope.

Definition byte (a : ascii) : nat := nat_of_ascii a.

(** The characters [str.isspace] accepts, by their UTF-8 bytes:
    U+0009-000D, U+001C-001F and U+0020 on one byte; U+0085 and U+00A0 on
    two; U+1680, U+2000-200A, U+2028, U+2029, U+202F, U+205F and U+3000
    on three. *)
Definition space1 (a : ascii) : bool :=
  (9 <=? byte a) && (byte a <=? 13) || (28 <=? byte a) && (byte a <=? 32).

Definition space2 (a b : ascii) : bool :=
  (byte a =? 194) && ((byte b =? 133) || (byte b =? 160)).

Definition space3 (a b c : ascii) : bool :=
  (byte a =? 225) && (byte b =? 154) && (byte c =? 128)
  || (byte a =? 226) && (byte b =? 128)
     && ((128 <=? byte c) && (byte c <=? 138)
         || (byte c =? 168) || (byte c =? 169) || (byte c =? 175))
  || (byte a =? 226) && (byte b =? 129) && (byte c =? 159)
  || (byte a =? 227) && (byte b =? 128) && (byte c =? 128).

(** The number of bytes of the white-space character [s] starts with, 0
    when it starts with none. *)
Definition space_len (s : string) : nat :=
  match s with
  | String a s1 =>
      if space1 a then 1
      else match s1 with
           | String b s2 =>
               if space2 a b then 2
               else match s2 with
                    | String c _ => if space3 a b c then 3 else 0
                    | EmptyString => 0
                    end
           | EmptyString => 0
           end
  | EmptyString => 0
  end.

(** [s[n:]]. *)
Fixpoint drop (n : nat) (s : string) : string :=
  match n, s with
  | S n', String _ s' => drop n' s'
  | _, _ => s
  end.

Lemma space_len_le (s : string) : space_len s <= String.length s.
Proof.
  destruct s as [|a [|b [|c s]]]; cbn [space_len String.length];
    repeat match goal with |- context [if ?x then _ else _] => destruct x end;
    lia.
Qed.

Lemma length_drop (n : nat) (s : string) :
  String.length (drop n s) = String.length s - n.
Proof.
  revert s; induction n as [|n IH]; intros [|a s]; cbn; try lia. apply IH.
Qed.

(** [s.lstrip()]: leading white space removed. *)
Equations? lstrip (s : string) : string by wf (String.length s) lt :=
  lstrip s with inspect (space_len s) := {
    | exist _ O _ => s;
    | exist _ (S k) E => lstrip (drop (S k) s) }.
Proof.
  change (String.length (drop (S k) s) < String.length s).
  pose proof (space_len_le s). rewrite length_drop. lia.
Qed.

(** [s] is made of white space only. *)
Equations? all_space (s : string) : bool by wf (String.length s) lt :=
  all_space s with inspect (space_len s) := {
    | exist _ O _ => match s with EmptyString => true | String _ _ => false end;
    | exist _ (S k) E => all_space (drop (S k) s) }.
Proof.
  change (String.length (drop (S k) s) < String.length s).
  pose proof (space_len_le s). rewrite length_drop. lia.
Qed.

(** [s.rstrip()]: the white space that ends the string removed. *)
Fixpoint rstrip (s : string) : string :=
  match s with
  | EmptyString => EmptyString
  | String a s' => if all_space s then EmptyString else String a (rstrip s')
  end.

(** [s.strip()]. *)
Definition strip (s : string) : string := rstrip (lstrip s).

End PyStrip.

(* ===================================================================== *)
(** * The hash key: [get_license_info] and [get_hashkey] *)
(* ===================================================================== *)

Module HashKey.

(** A response of [requests.get]: its status code and what [json.loads]
    makes of its content, nothing when the content is not JSON. *)
Record response : Type := { status_code : Z; body : option value }.

(** What the two functions get from outside: the answer of the license
    API, the key the operator types at the prompt, and the answers of the
    deployment API to the list request and to the request for one
    deployment. *)
Record world : Type := {
  license : value;
  api_key : string;
  deployments : response;
  deployment : value -> response
}.

Inductive event : Type :=
| LicenseGet
| Prompt
| ListDeployments (key : string)
| GetDeployment (key : string) (dep_id : value).

Inductive exn : Type :=
| CloudAPIError (msg : string)
| AttributeError
| KeyError
| IndexError
| TypeError
| JSONDecodeError.

(** A computation that talks to the outside and may raise: the events so
    far, in order, and how it ended. *)
Definition M (A : Type) : Type := (list event * (exn + A))%type.

Definition ret {A} (a : A) : M A := ([], inr a).
Definition raise {A} (e : exn) : M A := ([], inl e).
Definition emit (e : event) : M unit := ([e], inr tt).
Definition bind {A B} (m : M A) (f : A -> M B) : M B :=
  match m with
  | (w, inl e) => (w, inl e)
  | (w, inr a) => let '(w', r) := f a in ((w ++ w')%list, r)
  end.

Notation "x <- m ;; k" := (bind m (fun x => k))
  (at level 61, m at next level, right associativity).
Notation "m ;;; k" := (bind m (fun _ => k))
  (at level 61, right associativity).

Definition events {A} (m : M A) : list event := fst m.
Definition outcome {A} (m : M A) : exn + A := snd m.

(** [v.get(k, default)]: only a mapping has the method. *)
Definition get_or (v : value) (k : string) (default : value) : M value :=
  match v with
  | VDict d => ret (match PyDict.get k d with Some x => x | None => default end)
  | _ => raise AttributeError
  end.

(** [v[k]] for a string [k]. *)
Definition item (v : value) (k : string) : M value :=
  match v with
  | VDict d => match PyDict.get k d with
               | Some x => ret x
               | None => raise KeyError
               end
  | _ => raise TypeError
  end.

(** The first character of a string: its first byte and the
    continuation bytes that follow it. *)
Fixpoint continuation (s : string) : string :=
  match s with
  | String a s' =>
      if ((128 <=? nat_of_ascii a) && (nat_of_ascii a <=? 191))%nat
      then String a (continuation s') else EmptyString
  | EmptyString => EmptyString
  end.

(** [v[0]]. *)
Definition first_item (v : value) : M value :=
  match v with
  | VList (x :: _) => ret x
  | VList [] => raise IndexError
  | VDict _ => raise KeyError
  | VScalar (SStr (String a s)) => ret (VScalar (SStr (String a (continuation s))))
  | VScalar (SStr EmptyString) => raise IndexError
  | VScalar _ => raise TypeError
  end.

(** [len(v) == 0]. *)
Definition is_empty (v : value) : M bool :=
  match v with
  | VList l => ret (match l with [] => true | _ => false end)
  | VDict d => ret (match d with [] => true | _ => false end)
  | VScalar (SStr s) => ret (negb (PyStr.truthy s))
  | VScalar _ => raise TypeError
  end.

(** [json.loads(request.content)]. *)
Definition json_loads (r : response) : M value :=
  match body r with
  | Some v => ret v
  | None => raise JSONDecodeError
  end.

Definition get_license_info (w : world) : M value :=
  emit LicenseGet ;;;
  info <- get_or (license w) "license" (VDict []) ;;
  license_info <- get_or info "issued_to" (VScalar SNone) ;;
  if negb (Config.truthy license_info) then ret (VScalar SNone)
  else ret license_info.

(** [license_info.split('(')[0]]. *)
Definition before_paren (s : string) : string :=
  match PyStr.split "(" s with
  | p :: _ => p
  | [] => EmptyString
  end.

Definition authentication_failed := "Deployment API Authentication failed".
Definition no_deployments := "No deployments found".
Definition no_customer_id := "Customer ID not found".

(** The branch of [get_hashkey] for a license issued to "Elastic Cloud". *)
Definition cloud_customer_id (w : world) : M value :=
  emit Prompt ;;;
  emit (ListDeployments (api_key w)) ;;;
  if negb (status_code (deployments w) =? 200)%Z
  then raise (CloudAPIError authentication_failed)
  else
    listing <- json_loads (deployments w) ;;
    deps <- item listing "deployments" ;;
    none <- is_empty deps ;;
    if none then raise (CloudAPIError no_deployments)
    else
      first <- first_item deps ;;
      dep_id <- item first "id" ;;
      emit (GetDeployment (api_key w) dep_id) ;;;
      if negb (status_code (deployment w dep_id) =? 200)%Z
      then raise (CloudAPIError authentication_failed)
      else
        detail <- json_loads (deployment w dep_id) ;;
        metadata <- get_or detail "metadata" (VDict []) ;;
        customer_id <- get_or metadata "owner_id" (VScalar SNone) ;;
        if negb (Config.truthy customer_id)
        then raise (CloudAPIError no_customer_id)
        else ret customer_id.

Definition get_hashkey (w : world) : M value :=
  license_info <- get_license_info w ;;
  if negb (Config.truthy license_info) then ret (VScalar SNone)
  else match license_info with
       | VScalar (SStr s) =>
           if String.eqb s "Elastic Cloud" then cloud_customer_id w
           else ret (VScalar (SStr (PyStrip.strip (before_paren s))))
       | _ => raise AttributeError
       end.

(** The world whose list request answers with the mapping [listing]. *)
Definition with_listing (w : world) (listing : dict) : world :=
  {| license := license w;
     api_key := api_key w;
     deployments := {| status_code := status_code (deployments w);
                       body := Some (VDict listing) |};
     deployment := deployment w |}.

(** A cluster whose license names [issued_to], with one deployment whose
    owner is [owner]. *)
Definition sample_world (issued_to : string) (status : Z) (owner : value) : world :=
  {| license := VDict [("license", VDict [("issued_to", VScalar (SStr issued_to))])];
     api_key := "secret";
     deployments :=
       {| status_code := status;
          body := Some (VDict [("deployments",
                                VList [VDict [("id", VScalar (SStr "d1"))];
                                       VDict [("id", VScalar (SStr "d2"))]])]) |};
     deployment := fun _ =>
       {| status_code := 200;
          body := Some (VDict [("metadata", VDict [("owner_id", owner)])]) |} |}.

End HashKey.

(* ===================================================================== *)
(** * Shapes of records and configurations *)
(* ===================================================================== *)

Module Shape.
#[local] Open Scope list_scope.

(** The same pairs under renamed keys. *)
Definition rekey (f : string -> string) (d : dict) : dict :=
  map (fun '(k, v) => (f k, v)) d.

(** Every value is a leaf: a scalar or a list. *)
Definition flat (d : dict) : bool :=
  forallb (fun '(_, v) => negb (Record.is_mapping v)) d.

(** The keys [parse_config] looks up. *)
Definition read_keys : list string :=
  ["source"; "dest"; "anonymization"; "include"; "exclude"; "include_rest";
   "sensitive"].

(** The value on which [.get] fails in [parse_config]: [source] unless it
    is a mapping. *)
Definition first_non_mapping (source dest : value) : value :=
  if Record.is_mapping source then dest else source.

End Shape.

(* ===================================================================== *)
(** * QueryBuilder: [composite_query] *)
(* ===================================================================== *)

Module Query.
#[local] Open Scope list_scope.

Section Dumps.
(** [json.dumps]: the serialiser of the standard library, total on the
    values of [value]. *)
Variable dumps : value -> string.


End Dumps.


End Query.

(* ===================================================================== *)
(** * Facts about strings *)
(* ===================================================================== *)

Module PyStrFacts.
Import PyStr.

Lemma app_assoc (a b c : string) : (a ++ b) ++ c = a ++ b ++ c.
Proof. induction a as [|x a IH]; simpl; [reflexivity | now rewrite IH]. Qed.

Lemma app_nil_r (a : string) : a ++ "" = a.
Proof. induction a as [|x a IH]; simpl; [reflexivity | now rewrite IH]. Qed.

Lemma app_inv_head (a b c : string) : a ++ b = a ++ c -> b = c.
Proof.
  induction a as [|x a IH]; simpl; intros H; [exact H|].
  injection H as H. now apply IH.
Qed.

Lemma truthy_app_l (a b : string) : truthy a = true -> truthy (a ++ b) = true.
Proof. destruct a; simpl; [discriminate | reflexivity]. Qed.

Lemma starts_with_app (p s : string) : starts_with p (p ++ s) = true.
Proof.
  induction p as [|x p IH]; simpl; [reflexivity|].
  now rewrite Ascii.eqb_refl, IH.
Qed.

(** [starts_with] decides "is a prefix of". *)
Lemma starts_with_iff (p s : string) :
  starts_with p s = true <-> exists t, s = p ++ t.
Proof.
  split.
  - revert s; induction p as [|x p IH]; intros s H.
    + now exists s.
    + destruct s as [|y s]; simpl in H; [discriminate|].
      apply andb_true_iff in H as [Hxy Hps].
      apply Ascii.eqb_eq in Hxy; subst y.
      destruct (IH _ Hps) as [t ->]. now exists t.
  - intros [t ->]. apply starts_with_app.
Qed.

Lemma contains_of_starts_with (w s : string) :
  starts_with w s = true -> contains w s = true.
Proof. intros H. destruct s; simpl; now rewrite H. Qed.

(** [contains] decides "occurs as a contiguous run": Python's [w in s]. *)
Lemma contains_iff (w s : string) :
  contains w s = true <-> exists a b, s = a ++ w ++ b.
Proof.
  split.
  - induction s as [|x s IH]; simpl; intros H.
    + rewrite orb_false_r in H. apply starts_with_iff in H as [t Ht].
      exists "", t. exact Ht.
    + apply orb_true_iff in H as [H|H].
      * apply starts_with_iff in H as [t Ht]. exists "", t. exact Ht.
      * destruct (IH H) as (a & b & ->). now exists (String x a), b.
  - intros (a & b & ->). induction a as [|x a IH]; simpl.
    + apply contains_of_starts_with, starts_with_app.
    + rewrite IH. apply orb_true_r.
Qed.

(** A one-character separator does not occur in [k]. *)
Lemma contains_char_cons (c x : ascii) (k : string) :
  contains (String c "") (String x k) = false ->
  Ascii.eqb c x = false /\ contains (String c "") k = false.
Proof.
  simpl. intros H. apply orb_false_iff in H as [H1 H2].
  destruct k; simpl in *; rewrite ?andb_true_r in H1; now split.
Qed.

Section OneChar.
Variable c : ascii.
Let sep := String c "".

Lemma split_from_segment (k cur rest : string) :
  contains sep k = false ->
  split_from sep 0 cur (k ++ rest) = split_from sep 0 (cur ++ k) rest.
Proof.
  revert cur; induction k as [|x k IH]; intros cur Hk.
  - now rewrite app_nil_r.
  - apply contains_char_cons in Hk as [Hx Hk].
    cbn [append split_from sep starts_with]. rewrite Hx. cbn [andb].
    rewrite (IH _ Hk), app_assoc. reflexivity.
Qed.

Lemma split_from_sep (cur rest : string) :
  split_from sep 0 cur (sep ++ rest) = cur :: split_from sep 0 "" rest.
Proof.
  cbn [sep append split_from starts_with String.length Nat.sub].
  now rewrite Ascii.eqb_refl.
Qed.

(** Splitting a joined path gives the path back, when no segment holds
    the separator character. *)
Lemma split_join (p : list string) :
  p <> [] ->
  Forall (fun k => contains sep k = false) p ->
  split sep (join sep p) = p.
Proof.
  intros Hne Hall. unfold split. cbn [sep]. fold sep.
  induction Hall as [|k p Hk Hall IH]; [congruence|].
  destruct p as [|k' p].
  - cbn [join]. rewrite <- (app_nil_r k) at 1.
    now rewrite split_from_segment.
  - change (join sep (k :: k' :: p)) with (k ++ sep ++ join sep (k' :: p)).
    rewrite split_from_segment by assumption.
    rewrite split_from_sep. cbn [append]. f_equal.
    apply IH. discriminate.
Qed.
End OneChar.

End PyStrFacts.

(* ===================================================================== *)
(** * Facts about dictionaries *)
(* ===================================================================== *)

(** Induction over a value through its mappings; lists stay closed. *)
Lemma value_dict_ind (P : value -> Prop) :
  (forall s, P (VScalar s)) ->
  (forall l, P (VList l)) ->
  (forall d, Forall (fun kv => P (snd kv)) d -> P (VDict d)) ->
  forall v, P v.
Proof.
  intros Hs Hl Hd. fix IH 1. intros [s|l|d].
  - apply Hs.
  - apply Hl.
  - apply Hd. induction d as [|[k v] d IHd]; constructor; [apply IH | exact IHd].
Qed.

Module PyDictFacts.
Import PyDict.
#[local] Open Scope list_scope.

Lemma keys_app (a b : dict) : keys (a ++ b) = keys a ++ keys b.
Proof. apply map_app. Qed.

Lemma get_fresh (k : string) (d : dict) : ~ In k (keys d) -> get k d = None.
Proof.
  induction d as [|[k' v'] d IH]; simpl; intros H; [reflexivity|].
  destruct (String.eqb_spec k k') as [->|_]; [exfalso; auto | apply IH; auto].
Qed.

Lemma get_last (k : string) (x : value) (acc : dict) :
  ~ In k (keys acc) -> get k (acc ++ [(k, x)]) = Some x.
Proof.
  induction acc as [|[k' v'] acc IH]; simpl; intros H.
  - now rewrite String.eqb_refl.
  - destruct (String.eqb_spec k k') as [->|_]; [exfalso; auto | apply IH; auto].
Qed.

Lemma set_fresh (k : string) (v : value) (d : dict) :
  ~ In k (keys d) -> set k v d = d ++ [(k, v)].
Proof.
  induction d as [|[k' v'] d IH]; simpl; intros H; [reflexivity|].
  destruct (String.eqb_spec k k') as [->|_]; [exfalso; auto|].
  rewrite IH; auto.
Qed.

Lemma set_last (k : string) (x v : value) (acc : dict) :
  ~ In k (keys acc) -> set k v (acc ++ [(k, x)]) = acc ++ [(k, v)].
Proof.
  induction acc as [|[k' v'] acc IH]; simpl; intros H.
  - now rewrite String.eqb_refl.
  - destruct (String.eqb_spec k k') as [->|_]; [exfalso; auto|].
    rewrite IH; auto.
Qed.

(** Storing under [k] adds at most the key [k], and keeps the order. *)
Lemma keys_set (k : string) (v : value) (d : dict) :
  keys (set k v d) = if existsb (String.eqb k) (keys d) then keys d
                     else keys d ++ [k].
Proof.
  induction d as [|[k' v'] d IH]; simpl; [reflexivity|].
  destruct (String.eqb_spec k k') as [->|_]; simpl; [reflexivity|].
  rewrite IH. now destruct (existsb _ _).
Qed.

Lemma in_set (k : string) (v : value) (d : dict) (k0 : string) (v0 : value) :
  In (k0, v0) (set k v d) -> (k0, v0) = (k, v) \/ In (k0, v0) d.
Proof.
  induction d as [|[k' v'] d IH]; simpl.
  - intros [H|[]]; auto.
  - destruct (String.eqb_spec k k') as [->|_]; simpl; intros [H|H]; auto.
    destruct (IH H); auto.
Qed.

Lemma distinct_NoDup (l : list string) :
  Record.distinct l = true <-> NoDup l.
Proof.
  induction l as [|x l IH]; simpl.
  - split; [constructor | reflexivity].
  - rewrite andb_true_iff, negb_true_iff, IH. split.
    + intros [Hx Hl]. constructor; [|exact Hl].
      intros Hin. apply not_true_iff_false in Hx. apply Hx.
      apply existsb_exists. exists x. split; [exact Hin | apply String.eqb_refl].
    + intros H. inversion H as [|? ? Hx Hl]; subst. split; [|exact Hl].
      apply not_true_iff_false. intros He.
      apply existsb_exists in He as (y & Hy & Hxy).
      apply String.eqb_eq in Hxy; subst y. auto.
Qed.

Lemma fold_set_nodup (l acc : dict) :
  NoDup (keys (acc ++ l)) ->
  fold_left (fun d kv => set (fst kv) (snd kv) d) l acc = acc ++ l.
Proof.
  revert acc; induction l as [|[k v] l IH]; intros acc H; simpl.
  - now rewrite app_nil_r.
  - rewrite set_fresh.
    + rewrite IH; rewrite <- app_assoc; [reflexivity | exact H].
    + rewrite keys_app in H. simpl in H.
      apply NoDup_remove_2 in H. intros Hin. apply H.
      apply in_or_app. now left.
Qed.

(** [dict(items)] is [items] itself when no key occurs twice. *)
Lemma of_items_nodup (l : dict) : NoDup (keys l) -> of_items l = l.
Proof. intros H. unfold of_items. now rewrite fold_set_nodup. Qed.

Lemma fold_set_keys_nodup (l acc : dict) :
  NoDup (keys acc) ->
  NoDup (keys (fold_left (fun d kv => set (fst kv) (snd kv) d) l acc)).
Proof.
  revert acc; induction l as [|[k v] l IH]; intros acc H; simpl; [exact H|].
  apply IH. rewrite keys_set.
  destruct (existsb (String.eqb k) (keys acc)) eqn:E; [exact H|].
  apply NoDup_app; repeat split; [exact H | constructor; [intros [] | constructor] |].
  intros x Hx [<-|[]].
  apply not_true_iff_false in E. apply E.
  apply existsb_exists. exists k. split; [exact Hx | apply String.eqb_refl].
Qed.

(** A [dict] never holds a key twice. *)
Lemma of_items_keys_nodup (l : dict) : NoDup (keys (of_items l)).
Proof. apply fold_set_keys_nodup. constructor. Qed.

Lemma of_items_idem (l : dict) : of_items (of_items l) = of_items l.
Proof. apply of_items_nodup, of_items_keys_nodup. Qed.

Lemma fold_set_in (l acc : dict) (k : string) (v : value) :
  In (k, v) (fold_left (fun d kv => set (fst kv) (snd kv) d) l acc) ->
  In (k, v) acc \/ In (k, v) l.
Proof.
  revert acc; induction l as [|[k' v'] l IH]; intros acc H; simpl in *; [auto|].
  destruct (IH _ H) as [Hs|Hl]; [|auto].
  apply in_set in Hs as [Hs|Hs]; auto.
Qed.

(** Every pair of [dict(items)] is one of the items. *)
Lemma of_items_in (l : dict) (k : string) (v : value) :
  In (k, v) (of_items l) -> In (k, v) l.
Proof. intros H. apply fold_set_in in H as [[]|H]. exact H. Qed.

End PyDictFacts.

(* ===================================================================== *)
(** * Leaves and paths of a record *)
(* ===================================================================== *)

Module RecordFacts.
Import Record.
#[local] Open Scope list_scope.

Lemma leaves_cons (k : string) (v : value) (d : dict) :
  leaves ((k, v) :: d) = under k (leaves_entry v) ++ leaves d.
Proof. reflexivity. Qed.

Lemma each_mapping_dict (P : dict -> bool) (d : dict) :
  each_mapping P (VDict d) = true <->
  P d = true /\ Forall (fun kv => each_mapping P (snd kv) = true) d.
Proof.
  cbn [each_mapping]. rewrite andb_true_iff, forallb_forall, Forall_forall.
  split; intros [H1 H2]; (split; [exact H1|]); intros [k v] Hin;
    apply (H2 (k, v) Hin).
Qed.

Lemma in_under (k : string) l (q : list string) (x : value) :
  In (q, x) (under k l) -> exists p, q = k :: p /\ In (p, x) l.
Proof.
  unfold under. rewrite in_map_iff. intros ([p y] & E & Hin).
  injection E as <- <-. now exists p.
Qed.

Lemma in_leaves (d : dict) (q : list string) (x : value) :
  In (q, x) (leaves d) ->
  exists k v p, In (k, v) d /\ q = k :: p /\ In (p, x) (leaves_entry v).
Proof.
  unfold leaves. cbn [leaves_entry]. rewrite in_flat_map.
  intros ([k v] & Hd & Hin). apply in_under in Hin as (p & -> & Hp).
  now exists k, v, p.
Qed.

(** The leaves of a mapping lie under a non-empty path. *)
Lemma leaves_path_nonempty (d : dict) (q : list string) (x : value) :
  In (q, x) (leaves d) -> q <> [].
Proof. intros H. apply in_leaves in H as (k & v & p & _ & -> & _). discriminate. Qed.

(** A path is made of keys of the record. *)
Lemma leaves_path_keys (Q : string -> bool) (v : value) :
  each_mapping (fun d => forallb Q (PyDict.keys d)) v = true ->
  forall p x, In (p, x) (leaves_entry v) -> Forall (fun k => Q k = true) p.
Proof.
  induction v as [s|l|d IH] using value_dict_ind; intros Hv p x Hin.
  - destruct Hin as [E|[]]. injection E as <- <-. constructor.
  - destruct Hin as [E|[]]. injection E as <- <-. constructor.
  - apply each_mapping_dict in Hv as [Hk Hd].
    apply (in_leaves d) in Hin as (k & v & q & Hkv & -> & Hq).
    rewrite forallb_forall in Hk. rewrite Forall_forall in IH, Hd.
    constructor.
    + apply Hk. unfold PyDict.keys. apply in_map_iff. now exists (k, v).
    + apply (IH (k, v) Hkv (Hd (k, v) Hkv) q x Hq).
Qed.

Lemma under_paths (k : string) l : map fst (under k l) = map (cons k) (map fst l).
Proof.
  unfold under. rewrite !map_map. apply map_ext. now intros [p x].
Qed.

(** With distinct keys at every level, no two leaves share a path. *)
Lemma leaves_paths_nodup (v : value) :
  each_mapping keys_distinct v = true ->
  NoDup (map fst (leaves_entry v)).
Proof.
  induction v as [s|l|d IH] using value_dict_ind; intros Hv.
  - repeat constructor. intros [].
  - repeat constructor. intros [].
  - apply each_mapping_dict in Hv as [Hk Hd].
    apply PyDictFacts.distinct_NoDup in Hk.
    change (NoDup (map fst (leaves d))).
    induction d as [|[k v] d IHd]; [constructor|].
    rewrite leaves_cons, map_app, under_paths.
    inversion IH as [|? ? IHv IHrest]; subst.
    inversion Hd as [|? ? Hv Hrest]; subst.
    inversion Hk as [|? ? Hfresh Hkd]; subst.
    apply NoDup_app; repeat split.
    + apply NoDup_map_NoDup_ForallPairs; [|now apply IHv].
      intros a b _ _ E. now injection E.
    + now apply IHd.
    + intros q Hq1 Hq2. apply in_map_iff in Hq1 as (p & <- & _).
      apply in_map_iff in Hq2 as ([q x] & E & Hin). simpl in E. subst q.
      apply in_leaves in Hin as (k' & v' & p' & Hin & E & _).
      injection E as <- _. apply Hfresh.
      unfold PyDict.keys. apply in_map_iff. now exists (k, v').
Qed.

Lemma flat_map_map_in {A B C} (f : A -> list B) (g : B -> C) (h : A -> list C)
      (l : list A) :
  Forall (fun a => h a = map g (f a)) l ->
  flat_map h l = map g (flat_map f l).
Proof.
  induction 1 as [|a l Ha _ IH]; simpl; [reflexivity|].
  now rewrite Ha, IH, map_app.
Qed.

(** Rendering the paths of leaves by an injective [f] gives items that
    [dict] keeps as they are. *)
Lemma of_items_rendered (f : list string -> string)
      (l : list (list string * value)) :
  NoDup (map fst l) ->
  (forall p q, In p (map fst l) -> In q (map fst l) -> f p = f q -> p = q) ->
  PyDict.of_items (map (fun '(p, x) => (f p, x)) l)
  = map (fun '(p, x) => (f p, x)) l.
Proof.
  intros Hnd Hinj. apply PyDictFacts.of_items_nodup.
  unfold PyDict.keys. rewrite map_map.
  rewrite (map_ext _ (fun px => f (fst px))) by now intros [p x].
  rewrite <- (map_map fst f).
  apply NoDup_map_NoDup_ForallPairs; [|exact Hnd].
  intros p q Hp Hq. now apply Hinj.
Qed.

End RecordFacts.

(* ===================================================================== *)
(** * [flatten_nest] lists the leaves under their joined paths *)
(* ===================================================================== *)

Module FlattenFacts.
Import PyStr PyStrFacts Record RecordFacts Flatten.
#[local] Open Scope list_scope.

Lemma new_key_top (sep k : string) : new_key "" sep k = k.
Proof. reflexivity. Qed.

Lemma new_key_nested (p sep k : string) :
  truthy p = true -> new_key p sep k = (p ++ sep ++ k)%string.
Proof. unfold new_key. intros ->. apply PyStrFacts.app_assoc. Qed.

Lemma truthy_new_key (p sep k : string) :
  truthy p = true -> truthy (new_key p sep k) = true.
Proof.
  intros H. rewrite new_key_nested by exact H. now apply truthy_app_l.
Qed.

Lemma flatten_entry_dict (sep nk : string) (d : dict) :
  flatten_entry sep nk (VDict d) = flatten_nest d nk sep.
Proof. reflexivity. Qed.

Lemma flatten_entry_leaf (sep nk : string) (v : value) :
  is_mapping v = false -> flatten_entry sep nk v = [(nk, v)].
Proof. destruct v; [reflexivity | reflexivity | discriminate]. Qed.

Section OneChar.
Variable c : ascii.
Let sep := String c "".

Lemma suffix_join (p : list string) :
  p <> [] -> suffix sep p = (sep ++ join sep p)%string.
Proof.
  induction p as [|k p IH]; [congruence|]. intros _.
  destruct p as [|k' p].
  - cbn [suffix join]. now rewrite PyStrFacts.app_nil_r.
  - change (suffix sep (k :: k' :: p))
      with (sep ++ k ++ suffix sep (k' :: p))%string.
    rewrite IH by discriminate. reflexivity.
Qed.

Lemma join_cons (k : string) (p : list string) :
  (k ++ suffix sep p)%string = join sep (k :: p).
Proof.
  destruct p as [|k' p].
  - apply PyStrFacts.app_nil_r.
  - rewrite suffix_join by discriminate. reflexivity.
Qed.

Lemma seg_free_path (v : value) (p : list string) (x : value) :
  each_mapping (keys_avoid sep) v = true ->
  In (p, x) (leaves_entry v) ->
  Forall (fun k => contains sep k = false) p.
Proof.
  intros Hv Hin.
  pose proof (leaves_path_keys (fun k => negb (contains sep k)) v Hv p x Hin)
    as H.
  eapply Forall_impl; [|exact H]. intros k Hk.
  now apply negb_true_iff.
Qed.

Lemma join_inj (p q : list string) :
  p <> [] -> q <> [] ->
  Forall (fun k => contains sep k = false) p ->
  Forall (fun k => contains sep k = false) q ->
  join sep p = join sep q -> p = q.
Proof.
  intros Hp Hq Fp Fq E.
  rewrite <- (split_join c p Hp Fp), <- (split_join c q Hq Fq).
  fold sep. now rewrite E.
Qed.

(** Below a non-empty key [nk], the items of an entry are its leaves,
    each under [nk] followed by its path. *)
Lemma flatten_entry_leaves (v : value) :
  forall nk,
    truthy nk = true ->
    each_mapping keys_distinct v = true ->
    each_mapping (keys_avoid sep) v = true ->
    flatten_entry sep nk v
    = map (fun '(p, x) => ((nk ++ suffix sep p)%string, x)) (leaves_entry v).
Proof.
  induction v as [s|l|d IH] using value_dict_ind; intros nk Hnk Hu Hs.
  - cbn. now rewrite PyStrFacts.app_nil_r.
  - cbn. now rewrite PyStrFacts.app_nil_r.
  - pose proof Hu as Hu'. pose proof Hs as Hs'.
    apply each_mapping_dict in Hu' as [_ Hud].
    apply each_mapping_dict in Hs' as [_ Hsd].
    cbn [flatten_entry].
    rewrite (flat_map_map_in
               (fun '(k, v') => under k (leaves_entry v'))
               (fun '(p, x) => ((nk ++ suffix sep p)%string, x))).
    + apply of_items_rendered.
      * apply (leaves_paths_nodup (VDict d)). exact Hu.
      * intros p q Hp Hq E.
        apply in_map_iff in Hp as ([p' x] & <- & Hp).
        apply in_map_iff in Hq as ([q' y] & <- & Hq). cbn [fst] in *.
        pose proof (leaves_path_nonempty d _ _ Hp) as Np.
        pose proof (leaves_path_nonempty d _ _ Hq) as Nq.
        apply PyStrFacts.app_inv_head in E.
        rewrite !suffix_join in E by assumption.
        apply PyStrFacts.app_inv_head in E.
        apply join_inj; try assumption.
        -- apply (seg_free_path (VDict d) p' x Hs Hp).
        -- apply (seg_free_path (VDict d) q' y Hs Hq).
    + rewrite Forall_forall in IH, Hud, Hsd. apply Forall_forall.
      intros [k v] Hin.
      pose proof (IH (k, v) Hin (new_key nk sep k)
                    (truthy_new_key _ _ _ Hnk) (Hud _ Hin) (Hsd _ Hin)) as E.
      cbn [snd] in E. rewrite E.
      unfold under. rewrite map_map. apply map_ext. intros [p x].
      rewrite new_key_nested by exact Hnk. cbn [suffix].
      now rewrite !PyStrFacts.app_assoc.
Qed.

(** At the top level the keys are the joined paths. *)
Lemma flatten_nest_leaves (r : dict) :
  keys_unique r = true ->
  sep_free sep r = true ->
  empty_key_is_leaf r = true ->
  flatten_nest r "" sep
  = map (fun '(p, x) => (join sep p, x)) (leaves r).
Proof.
  intros Hu Hs He.
  pose proof Hu as Hu'. pose proof Hs as Hs'.
  unfold keys_unique in Hu'. unfold sep_free in Hs'.
  apply each_mapping_dict in Hu' as [_ Hud].
  apply each_mapping_dict in Hs' as [_ Hsd].
  unfold flatten_nest.
  rewrite (flat_map_map_in
             (fun '(k, v') => under k (leaves_entry v'))
             (fun '(p, x) => (join sep p, x))).
  - apply of_items_rendered.
    + apply (leaves_paths_nodup (VDict r)). exact Hu.
    + intros p q Hp Hq E.
      apply in_map_iff in Hp as ([p' x] & <- & Hp).
      apply in_map_iff in Hq as ([q' y] & <- & Hq). cbn [fst] in *.
      apply join_inj; try assumption.
      * apply (leaves_path_nonempty r _ _ Hp).
      * apply (leaves_path_nonempty r _ _ Hq).
      * apply (seg_free_path (VDict r) p' x Hs Hp).
      * apply (seg_free_path (VDict r) q' y Hs Hq).
  - unfold empty_key_is_leaf in He. rewrite forallb_forall in He.
    rewrite Forall_forall in Hud, Hsd. apply Forall_forall.
    intros [k v] Hin. rewrite new_key_top.
    specialize (He _ Hin). cbn in He.
    apply orb_true_iff in He as [Hk|Hv].
    + rewrite (flatten_entry_leaves v k Hk (Hud _ Hin) (Hsd _ Hin)).
      unfold under. rewrite map_map. apply map_ext. intros [p x].
      now rewrite join_cons.
    + apply negb_true_iff in Hv. rewrite flatten_entry_leaf by exact Hv.
      destruct v; [reflexivity | reflexivity | discriminate].
Qed.
End OneChar.

End FlattenFacts.

(* ===================================================================== *)
(** * Storing the leaves of a record rebuilds it *)
(* ===================================================================== *)

Module UnflattenFacts.
Import PyStr PyStrFacts PyDictFacts Record RecordFacts Unflatten.
#[local] Open Scope list_scope.

Lemma insert_path_fresh (k : string) (q : list string) (v : value) (acc : dict) :
  q <> [] -> ~ In k (PyDict.keys acc) ->
  insert_path (k :: q) v acc = acc ++ [(k, VDict (insert_path q v []))].
Proof.
  intros Hq Hk. destruct q as [|k' q]; [congruence|].
  cbn [insert_path]. rewrite (get_fresh k acc Hk).
  now apply set_fresh.
Qed.

Lemma insert_path_last (k : string) (q : list string) (v : value)
      (x acc : dict) :
  q <> [] -> ~ In k (PyDict.keys acc) ->
  insert_path (k :: q) v (acc ++ [(k, VDict x)])
  = acc ++ [(k, VDict (insert_path q v x))].
Proof.
  intros Hq Hk. destruct q as [|k' q]; [congruence|].
  cbn [insert_path]. rewrite (get_last k (VDict x) acc Hk).
  now apply set_last.
Qed.

(** Leaves stored under a key that is already the last one go into its
    mapping. *)
Lemma fold_under_last (k : string) (acc : dict) l :
  ~ In k (PyDict.keys acc) ->
  (forall p y, In (p, y) l -> p <> []) ->
  forall x,
    fold_left store (under k l) (acc ++ [(k, VDict x)])
    = acc ++ [(k, VDict (fold_left store l x))].
Proof.
  intros Hk. induction l as [|[p y] l IH]; intros Hl x; [reflexivity|].
  cbn [under map fold_left]. unfold store at 2 4. cbn [fst snd].
  rewrite insert_path_last; [|apply (Hl p y); now left|exact Hk].
  apply IH. intros p' y' Hin. apply (Hl p' y'). now right.
Qed.

Lemma fold_under_fresh (k : string) (acc : dict) l :
  ~ In k (PyDict.keys acc) ->
  (forall p y, In (p, y) l -> p <> []) ->
  l <> [] ->
  fold_left store (under k l) acc
  = acc ++ [(k, VDict (fold_left store l []))].
Proof.
  intros Hk Hl Hne. destruct l as [|[p y] l]; [congruence|].
  cbn [under map fold_left]. unfold store at 2 4. cbn [fst snd].
  rewrite insert_path_fresh; [|apply (Hl p y); now left|exact Hk].
  apply (fold_under_last k acc l Hk).
  intros p' y' Hin. apply (Hl p' y'). now right.
Qed.

(** A value without empty mappings has a leaf. *)
Lemma leaves_entry_nonempty (v : value) :
  each_mapping nonempty v = true -> leaves_entry v <> [].
Proof.
  induction v as [s|l|d IH] using value_dict_ind; intros Hv; try discriminate.
  apply each_mapping_dict in Hv as [Hd Hall].
  destruct d as [|[k v] d]; [discriminate|].
  inversion IH as [|? ? IHv _]; subst. inversion Hall as [|? ? Hv _]; subst.
  cbn [leaves_entry flat_map]. cbn [snd] in *.
  specialize (IHv Hv). destruct (leaves_entry v); [congruence | discriminate].
Qed.

Lemma rebuilds_dict (d : dict) :
  Forall (fun kv => rebuilds (snd kv)) d ->
  Forall (fun kv => each_mapping keys_distinct (snd kv) = true) d ->
  Forall (fun kv => each_mapping nonempty (snd kv) = true) d ->
  NoDup (PyDict.keys d) ->
  forall acc,
    (forall k, In k (PyDict.keys acc) -> ~ In k (PyDict.keys d)) ->
    fold_left store (leaves d) acc = acc ++ d.
Proof.
  induction d as [|[k v] d IHd]; intros IH Hu Hn Hk acc Hacc.
  - cbn. now rewrite List.app_nil_r.
  - inversion IH as [|? ? IHv IHrest]; subst.
    inversion Hu as [|? ? Huv Hurest]; subst.
    inversion Hn as [|? ? Hnv Hnrest]; subst.
    inversion Hk as [|? ? Hfresh Hkd]; subst. cbn [snd] in *.
    rewrite leaves_cons, fold_left_app.
    rewrite (IHv Huv Hnv k acc).
    + rewrite (IHd IHrest Hurest Hnrest Hkd).
      * now rewrite <- List.app_assoc.
      * intros k' Hin. rewrite keys_app in Hin.
        apply in_app_or in Hin as [Hin|[<-|[]]]; [|exact Hfresh].
        intros Hd. apply (Hacc k' Hin). now right.
    + intros Hin. apply (Hacc k Hin). now left.
Qed.

Lemma rebuilds_all (v : value) : rebuilds v.
Proof.
  induction v as [s|l|d IH] using value_dict_ind; intros Hu Hn k acc Hk.
  - cbn. now apply set_fresh.
  - cbn. now apply set_fresh.
  - pose proof (leaves_entry_nonempty _ Hn) as Hne.
    apply each_mapping_dict in Hu as [Hkd Hud].
    apply each_mapping_dict in Hn as [_ Hnd].
    apply distinct_NoDup in Hkd.
    rewrite fold_under_fresh; [|exact Hk|apply leaves_path_nonempty|exact Hne].
    change (leaves_entry (VDict d)) with (leaves d).
    rewrite (rebuilds_dict d IH Hud Hnd Hkd []); [reflexivity|].
    intros k' [].
Qed.

Section OneChar.
Variable c : ascii.
Let sep := String c "".

(** Splitting the joined paths and storing the leaves is storing them
    under the paths themselves. *)
Lemma unflatten_rendered l :
  (forall p x, In (p, x) l ->
               p <> [] /\ Forall (fun k => contains sep k = false) p) ->
  unflatten (map (fun '(p, x) => (join sep p, x)) l) sep
  = fold_left store l [].
Proof.
  unfold unflatten. generalize (@nil (string * value)).
  induction l as [|[p x] l IH]; intros acc Hl; [reflexivity|].
  cbn [map fold_left]. unfold store at 2. cbn [fst snd].
  destruct (Hl p x (or_introl eq_refl)) as [Hp Fp].
  replace (split sep (join sep p)) with p
    by (symmetry; apply (split_join c p Hp Fp)).
  apply IH. intros p' x' Hin. apply (Hl p' x'). now right.
Qed.
End OneChar.

End UnflattenFacts.

(* ===================================================================== *)
(** * FlattenCodec: the round trip *)
(* ===================================================================== *)

Module RoundTrip.
Import Record.
#[local] Open Scope list_scope.

(** C1 (amended).  For every record whose mappings have pairwise distinct
    keys, every one-character separator that occurs in no key of the
    record, when no nested mapping is empty and the empty string is not a
    top-level key bound to a mapping: unflattening
    [flatten_nest(R, sep=S)] with the same separator gives [R] again, in
    the same order. *)
Theorem unflatten_flatten_roundtrip (r : dict) (c : ascii) :
  keys_unique r = true ->
  sep_free (String c "") r = true ->
  no_empty_mapping r = true ->
  empty_key_is_leaf r = true ->
  Unflatten.unflatten (Flatten.flatten_nest r "" (String c "")) (String c "") = r.
Proof.
  intros Hu Hs Hn He.
  rewrite (FlattenFacts.flatten_nest_leaves c r Hu Hs He).
  rewrite UnflattenFacts.unflatten_rendered.
  - pose proof Hu as Hu'. unfold keys_unique in Hu'.
    apply RecordFacts.each_mapping_dict in Hu' as [Hk Hud].
    apply PyDictFacts.distinct_NoDup in Hk.
    apply (UnflattenFacts.rebuilds_dict r); try assumption.
    + apply Forall_forall. intros kv _. apply UnflattenFacts.rebuilds_all.
    + unfold no_empty_mapping in Hn. rewrite forallb_forall in Hn.
      apply Forall_forall. intros [k v] Hin. apply (Hn _ Hin).
    + intros k [].
  - intros p x Hin. split.
    + apply (RecordFacts.leaves_path_nonempty r p x Hin).
    + apply (FlattenFacts.seg_free_path c (VDict r) p x Hs Hin).
Qed.

Lemma unflatten_flatten_roundtrip_witness :
  keys_unique sample_record = true /\
  sep_free "." sample_record = true /\
  no_empty_mapping sample_record = true /\
  empty_key_is_leaf sample_record = true /\
  Unflatten.unflatten (Flatten.flatten_nest sample_record "" ".") "."
  = sample_record.
Proof.
  refine (conj eq_refl (conj eq_refl (conj eq_refl (conj eq_refl _)))).
  apply (unflatten_flatten_roundtrip sample_record "."%char); reflexivity.
Defined.

(** C1 as stated fails: a key bound to an empty mapping leaves no trace
    in the flat mapping, although "." occurs in no key. *)
Lemma roundtrip_loses_empty_mapping :
  keys_unique [("a", VDict [])] = true /\
  sep_free "." [("a", VDict [])] = true /\
  Flatten.flatten_nest [("a", VDict [])] "" "." = [] /\
  Unflatten.unflatten (Flatten.flatten_nest [("a", VDict [])] "" ".") "."
  <> [("a", VDict [])].
Proof. repeat split; discriminate. Qed.

(** Whatever the inverse is, it cannot tell the two apart:
    [flatten_nest] is not injective on well-formed records. *)
Lemma flatten_nest_not_injective :
  ~ (forall r1 r2,
        keys_unique r1 = true -> keys_unique r2 = true ->
        Flatten.flatten_nest r1 "" "." = Flatten.flatten_nest r2 "" "." ->
        r1 = r2).
Proof.
  intros H.
  specialize (H [("a", VDict [])] [] eq_refl eq_refl eq_refl). discriminate.
Qed.

(** A mapping under the top-level key [""] is flattened without the
    separator, so the path does not lead back to it. *)
Example roundtrip_empty_top_key :
  Flatten.flatten_nest [("", VDict [("a", VScalar (SInt 1))])] "" "."
  = [("a", VScalar (SInt 1))] /\
  Unflatten.unflatten [("a", VScalar (SInt 1))] "." = [("a", VScalar (SInt 1))].
Proof. split; reflexivity. Qed.

(** A separator of several characters can straddle a key and the
    separator that follows it, although it occurs in no key. *)
Example roundtrip_long_separator :
  sep_free "aa" [("xa", VDict [("y", VScalar (SInt 1))])] = true /\
  Flatten.flatten_nest [("xa", VDict [("y", VScalar (SInt 1))])] "" "aa"
  = [("xaaay", VScalar (SInt 1))] /\
  Unflatten.unflatten [("xaaay", VScalar (SInt 1))] "aa"
  = [("x", VDict [("ay", VScalar (SInt 1))])].
Proof. repeat split; reflexivity. Qed.

End RoundTrip.

(* ===================================================================== *)
(** * FlattenCodec: what [flatten_nest] emits *)
(* ===================================================================== *)

Module Emission.
Import PyStr PyStrFacts Record RecordFacts Flatten FlattenFacts.
#[local] Open Scope list_scope.

Lemma flatten_nest_snoc (d : dict) (p sep k : string) (v : value) :
  flatten_nest (d ++ [(k, v)]) p sep
  = PyDict.update (flatten_nest d p sep) (flatten_entry sep (new_key p sep k) v).
Proof.
  unfold flatten_nest, PyDict.of_items, PyDict.update.
  rewrite flat_map_app, fold_left_app. cbn [flat_map].
  now rewrite List.app_nil_r.
Qed.

(** Every item of the result is a leaf of the input, whole, under the key
    built along its path. *)
Lemma flatten_entry_items (sep : string) (v : value) :
  forall nk k x,
    In (k, x) (flatten_entry sep nk v) ->
    is_mapping x = false /\
    exists q, In (q, x) (leaves_entry v) /\ k = path_key sep nk q.
Proof.
  induction v as [s|l|d IH] using value_dict_ind; intros nk k x Hin.
  - destruct Hin as [E|[]]. injection E as <- <-.
    split; [reflexivity|]. exists []. split; [now left | reflexivity].
  - destruct Hin as [E|[]]. injection E as <- <-.
    split; [reflexivity|]. exists []. split; [now left | reflexivity].
  - cbn [flatten_entry] in Hin. apply PyDictFacts.of_items_in in Hin.
    apply in_flat_map in Hin as ([k' v'] & Hd & Hin).
    rewrite Forall_forall in IH.
    destruct (IH (k', v') Hd _ _ _ Hin) as (Hx & q & Hq & ->).
    split; [exact Hx|]. exists (k' :: q). split; [|reflexivity].
    cbn [leaves_entry]. apply in_flat_map. exists (k', v'). split; [exact Hd|].
    apply in_map_iff. now exists (q, x).
Qed.

Lemma path_key_extends (sep : string) (q : list string) :
  forall nk, truthy nk = true -> exists t, path_key sep nk q = (nk ++ t)%string.
Proof.
  induction q as [|k q IH]; intros nk Hnk.
  - exists "". cbn. now rewrite PyStrFacts.app_nil_r.
  - destruct (IH (new_key nk sep k) (truthy_new_key _ _ _ Hnk)) as [t Ht].
    exists (sep ++ k ++ t)%string. unfold path_key in *. cbn [fold_left].
    rewrite Ht, new_key_nested by exact Hnk.
    now rewrite !PyStrFacts.app_assoc.
Qed.

(** Below a non-empty parent key every key starts with it and the
    separator. *)
Lemma flatten_nest_prefixed (d : dict) (p sep k : string) :
  truthy p = true ->
  In k (PyDict.keys (flatten_nest d p sep)) ->
  starts_with (p ++ sep) k = true.
Proof.
  intros Hp Hin. unfold PyDict.keys in Hin.
  apply in_map_iff in Hin as ([k' x] & <- & Hin). cbn [fst].
  rewrite <- flatten_entry_dict in Hin.
  apply flatten_entry_items in Hin as (_ & q & Hq & ->).
  apply (in_leaves d) in Hq as (k0 & v0 & q' & _ & -> & _).
  destruct (path_key_extends sep q' (new_key p sep k0) (truthy_new_key _ _ _ Hp))
    as [t Ht].
  apply starts_with_iff. exists (k0 ++ t)%string.
  unfold path_key in *. cbn [fold_left]. rewrite Ht.
  rewrite new_key_nested by exact Hp.
  now rewrite !PyStrFacts.app_assoc.
Qed.

(** C8 (amended).  For every mapping: an empty mapping flattens to the
    empty mapping; a pair whose value is not a mapping (a scalar or a
    list) is stored whole under its [new_key], and a pair whose value is
    a mapping stores the items of the recursive call made with its
    [new_key]; every item of the result is such a leaf of the input,
    never a mapping, under the key built along its path; below a
    non-empty parent key [P] the new key is [P + sep + k] and every key
    of the result starts with [P + sep] (below an empty parent key, the
    top level or a top-level key that is the empty string, keys are not
    prefixed); and when the keys of every mapping are distinct, the
    separator is one character that occurs in no key and the empty string
    is not a top-level key bound to a mapping, the result is exactly the
    leaves of the record in order, each under its path joined with the
    separator. *)
Theorem flatten_nest_emits_leaves :
  (forall p sep, flatten_nest [] p sep = []) /\
  (forall d p sep k v,
      is_mapping v = false ->
      flatten_nest (d ++ [(k, v)]) p sep
      = PyDict.set (new_key p sep k) v (flatten_nest d p sep)) /\
  (forall d p sep k d',
      flatten_nest (d ++ [(k, VDict d')]) p sep
      = PyDict.update (flatten_nest d p sep)
                      (flatten_nest d' (new_key p sep k) sep)) /\
  (forall d p sep k x,
      In (k, x) (flatten_nest d p sep) ->
      is_mapping x = false /\
      exists q, In (q, x) (leaves d) /\ k = path_key sep p q) /\
  (forall d p sep k,
      truthy p = true ->
      new_key p sep k = (p ++ sep ++ k)%string /\
      (In k (PyDict.keys (flatten_nest d p sep)) ->
       starts_with (p ++ sep) k = true)) /\
  (forall r c,
      keys_unique r = true ->
      sep_free (String c "") r = true ->
      empty_key_is_leaf r = true ->
      flatten_nest r "" (String c "")
      = map (fun '(p, x) => (join (String c "") p, x)) (leaves r)).
Proof.
  split; [reflexivity|].
  split; [intros d p sep k v Hv;
          now rewrite flatten_nest_snoc, flatten_entry_leaf|].
  split; [intros d p sep k d'; apply flatten_nest_snoc|].
  split; [intros d p sep k x Hin;
          apply (flatten_entry_items sep (VDict d) p k x Hin)|].
  split.
  - intros d p sep k Hp. split; [now apply new_key_nested|].
    now apply flatten_nest_prefixed.
  - intros r c. apply flatten_nest_leaves.
Qed.

Lemma flatten_nest_emits_leaves_witness :
  flatten_nest Record.sample_record "" "."
  = [("user.email", VScalar (SStr "a@b.com"));
     ("user.name", VScalar (SStr "Al"));
     ("user..id", VScalar (SInt 7));
     ("tags", VList [VScalar (SStr "secret"); VScalar (SStr "ok")]);
     ("", VScalar SNone);
     ("n", VScalar (SInt 1))] /\
  starts_with "user." "user.email" = true.
Proof.
  destruct flatten_nest_emits_leaves as (_ & _ & _ & _ & Hpre & Hall).
  split.
  - rewrite (Hall Record.sample_record "."%char eq_refl eq_refl eq_refl).
    reflexivity.
  - apply (proj2 (Hpre [("email", VScalar (SStr "a@b.com"))] "user" "."
                       "user.email" eq_refl)).
    left. reflexivity.
Defined.

(** C8 as stated fails: the leaf at the path ["", "a"], whose dotted path
    is ".a", is emitted under "a": the descent below the top-level key
    [""] does not prefix its keys. *)
Lemma descent_below_empty_key_unprefixed :
  In ([""; "a"], VScalar (SInt 1))
     (leaves [("", VDict [("a", VScalar (SInt 1))])]) /\
  join "." [""; "a"] = ".a" /\
  flatten_nest [("", VDict [("a", VScalar (SInt 1))])] "" "."
  = [("a", VScalar (SInt 1))] /\
  PyDict.get ".a" (flatten_nest [("", VDict [("a", VScalar (SInt 1))])] "" ".")
  = None.
Proof. repeat split. now left. Qed.

(** Two leaves whose keys build the same flat key: the later one wins. *)
Example flatten_nest_collision :
  flatten_nest [("a.b", VScalar (SInt 1));
                ("a", VDict [("b", VScalar (SInt 2))])] "" "."
  = [("a.b", VScalar (SInt 2))].
Proof. reflexivity. Qed.

End Emission.

(* ===================================================================== *)
(** * ConfigModel: when [parse_config] fails *)
(* ===================================================================== *)

Module ConfigFacts.
Import Config.
#[local] Open Scope list_scope.

Lemma parse_config_outcome (config : dict) :
  match first_failure config with
  | Some msg => outcome (parse_config config) = inl (ConfigParserError msg)
  | None =>
      match dict_get "source" config, dict_get "dest" config with
      | VDict _, VDict _ =>
          outcome (parse_config config)
          = inr {| source := dict_get "source" config;
                   dest := dict_get "dest" config;
                   anonymization_type := dict_get "anonymization" config;
                   masked_fields := dict_get "include" config;
                   suppressed_fields := dict_get "exclude" config;
                   include_rest := dict_get "include_rest" config;
                   sensitive := dict_get "sensitive" config |}
      | _, _ => exists msg,
          outcome (parse_config config) = inl (AttributeError msg)
      end
  end.
Proof.
  unfold first_failure, parse_config.
  case_truthy (dict_get "source" config); [|reflexivity].
  case_truthy (dict_get "dest" config); [|reflexivity].
  case_truthy (dict_get "include" config);
    (destruct (dict_get "source" config) as [s|l|s] eqn:Es;
     [ destruct s; eexists; reflexivity | eexists; reflexivity | ];
     destruct (dict_get "dest" config) as [d|l|d] eqn:Ed;
     [ destruct d; eexists; reflexivity | eexists; reflexivity | ];
     cbn [negb method_get bind ret when raise warn app];
     case_truthy (dict_get "type" s); [|reflexivity];
     case_truthy (dict_get "type" d); reflexivity).
Qed.

Lemma parse_config_warnings (config : dict) :
  warnings (parse_config config)
  = if truthy (dict_get "source" config) && truthy (dict_get "dest" config)
       && negb (truthy (dict_get "include" config))
    then [no_masked_fields] else [].
Proof.
  unfold parse_config.
  case_truthy (dict_get "source" config); [|reflexivity].
  case_truthy (dict_get "dest" config); [|reflexivity].
  case_truthy (dict_get "include" config);
    (destruct (dict_get "source" config) as [s|l|s];
     [ destruct s; reflexivity | reflexivity | ];
     destruct (dict_get "dest" config) as [d|l|d];
     [ destruct d; reflexivity | reflexivity | ];
     cbn [negb method_get bind ret when raise warn app];
     case_truthy (dict_get "type" s); [|reflexivity];
     case_truthy (dict_get "type" d); reflexivity).
Qed.

Lemma truthy_type_nonempty (d : dict) :
  truthy (dict_get "type" d) = true -> truthy (VDict d) = true.
Proof. destruct d; [discriminate | reflexivity]. Qed.

Section Outcome.
Variable config : dict.
Let source := dict_get "source" config.
Let dest := dict_get "dest" config.

Lemma raises_source_undefined :
  truthy source = false ->
  outcome (parse_config config) = inl (ConfigParserError source_undefined).
Proof.
  intros Es. pose proof (parse_config_outcome config) as H.
  unfold first_failure in H. fold source in H. now rewrite Es in H.
Qed.

Lemma raises_dest_undefined :
  truthy source = true -> truthy dest = false ->
  outcome (parse_config config) = inl (ConfigParserError dest_undefined).
Proof.
  intros Es Ed. pose proof (parse_config_outcome config) as H.
  unfold first_failure in H. fold source dest in H.
  now rewrite Es, Ed in H.
Qed.

Lemma after_type_checks (s d : dict) :
  source = VDict s -> dest = VDict d ->
  truthy source = true -> truthy dest = true ->
  outcome (parse_config config)
  = if negb (truthy (dict_get "type" s))
    then inl (ConfigParserError source_type_undefined)
    else if negb (truthy (dict_get "type" d))
         then inl (ConfigParserError dest_type_undefined)
         else inr (config_of config).
Proof.
  intros Hs Hd Es Ed. pose proof (parse_config_outcome config) as H.
  unfold first_failure in H. fold source dest in H.
  rewrite Es, Ed, Hs, Hd in H. cbn [negb] in H.
  destruct (truthy (dict_get "type" s)); cbn [negb] in *; [|exact H].
  destruct (truthy (dict_get "type" d)); cbn [negb] in *; [|exact H].
  unfold config_of. fold source dest. rewrite Hs, Hd. exact H.
Qed.

Lemma raises_attribute_error :
  truthy source = true -> truthy dest = true ->
  Record.is_mapping source && Record.is_mapping dest = false ->
  exists msg, outcome (parse_config config) = inl (AttributeError msg).
Proof.
  intros Es Ed Hm. pose proof (parse_config_outcome config) as H.
  unfold first_failure in H. fold source dest in H.
  rewrite Es, Ed in H. cbn [negb] in H.
  destruct source as [a|l|s]; [exact H | exact H |].
  destruct dest as [a|l|d]; [exact H | exact H | discriminate].
Qed.
End Outcome.

(** C3 (amended).  For every raw configuration mapping, [parse_config]
    raises [ConfigParserError] exactly when [source] is falsy (absent,
    [None], or empty), or [dest] is falsy, or both are mappings and
    [source.type] or [dest.type] is falsy (absent, [None], empty string,
    zero, [False], empty list or mapping); the first failing check, in
    that order, gives the message, and the four messages are distinct;
    when [source] and [dest] are mappings with truthy [type] entries a
    [Config] is returned whose other fields are the values of the keys
    [anonymization], [include], [exclude], [include_rest], [sensitive],
    [None] when absent: no other key is required. *)
Theorem parse_config_raises_iff (config : dict) :
  let source := dict_get "source" config in
  let dest := dict_get "dest" config in
  ((exists msg, outcome (parse_config config) = inl (ConfigParserError msg))
   <-> (truthy source = false \/ truthy dest = false \/
        exists s d, source = VDict s /\ dest = VDict d /\
                    (truthy (dict_get "type" s) = false \/
                     truthy (dict_get "type" d) = false))) /\
  (truthy source = false ->
   outcome (parse_config config) = inl (ConfigParserError source_undefined)) /\
  (truthy source = true -> truthy dest = false ->
   outcome (parse_config config) = inl (ConfigParserError dest_undefined)) /\
  (forall s d,
      source = VDict s -> dest = VDict d ->
      truthy source = true -> truthy dest = true ->
      truthy (dict_get "type" s) = false ->
      outcome (parse_config config)
      = inl (ConfigParserError source_type_undefined)) /\
  (forall s d,
      source = VDict s -> dest = VDict d ->
      truthy dest = true ->
      truthy (dict_get "type" s) = true ->
      truthy (dict_get "type" d) = false ->
      outcome (parse_config config)
      = inl (ConfigParserError dest_type_undefined)) /\
  NoDup [source_undefined; dest_undefined;
         source_type_undefined; dest_type_undefined] /\
  (forall s d,
      source = VDict s -> dest = VDict d ->
      truthy (dict_get "type" s) = true ->
      truthy (dict_get "type" d) = true ->
      outcome (parse_config config) = inr (config_of config)).
Proof.
  intros source dest.
  split; [split|].
  - (* a ConfigParserError was raised: one of the four checks failed *)
    intros [msg Hraise].
    destruct (truthy source) eqn:Es; [|now left].
    destruct (truthy dest) eqn:Ed; [|now (right; left)].
    right; right.
    destruct (Record.is_mapping source && Record.is_mapping dest) eqn:Hm.
    + apply andb_true_iff in Hm as [Hs Hd].
      destruct source as [a|l|s] eqn:Esrc; try discriminate.
      destruct dest as [a|l|d] eqn:Edst; try discriminate.
      exists s, d. repeat split.
      rewrite (after_type_checks config s d Esrc Edst) in Hraise
        by (unfold dict_get in *; fold source dest; congruence).
      destruct (truthy (dict_get "type" s)); [|now left].
      destruct (truthy (dict_get "type" d)); [|now right].
      discriminate.
    + destruct (raises_attribute_error config Es Ed Hm) as [m Hm'].
      rewrite Hm' in Hraise. discriminate.
  - (* a check fails: the error is raised *)
    intros [Es|[Ed|(s & d & Hs & Hd & Ht)]].
    + eexists. now apply raises_source_undefined.
    + destruct (truthy source) eqn:Es.
      * eexists. now apply raises_dest_undefined.
      * eexists. now apply raises_source_undefined.
    + destruct (truthy source) eqn:Es;
        [|eexists; now apply raises_source_undefined].
      destruct (truthy dest) eqn:Ed;
        [|eexists; now apply raises_dest_undefined].
      rewrite (after_type_checks config s d Hs Hd Es Ed).
      destruct (truthy (dict_get "type" s)); [|eexists; reflexivity].
      destruct (truthy (dict_get "type" d)); [|eexists; reflexivity].
      destruct Ht; discriminate.
  - split; [apply raises_source_undefined|].
    split; [apply raises_dest_undefined|].
    split; [intros s d Hs Hd Es Ed Ht;
            now rewrite (after_type_checks config s d Hs Hd Es Ed), Ht|].
    split.
    { intros s d Hs Hd Ed Hts Htd.
      assert (Es : truthy source = true)
        by (rewrite Hs; now apply truthy_type_nonempty).
      now rewrite (after_type_checks config s d Hs Hd Es Ed), Hts, Htd. }
    split; [repeat constructor; cbn; intuition discriminate|].
    intros s d Hs Hd Hts Htd.
    assert (Es : truthy source = true)
      by (rewrite Hs; now apply truthy_type_nonempty).
    assert (Ed : truthy dest = true)
      by (rewrite Hd; now apply truthy_type_nonempty).
    now rewrite (after_type_checks config s d Hs Hd Es Ed), Hts, Htd.
Qed.

Lemma parse_config_raises_iff_witness :
  outcome (parse_config (es_config "elasticsearch" "csv" []))
  = inr (config_of (es_config "elasticsearch" "csv" [])) /\
  outcome (parse_config [("dest", VDict [("type", VScalar (SStr "csv"))])])
  = inl (ConfigParserError source_undefined).
Proof.
  pose proof (parse_config_raises_iff (es_config "elasticsearch" "csv" []))
    as (_ & _ & _ & _ & _ & _ & Hret).
  pose proof (parse_config_raises_iff
                [("dest", VDict [("type", VScalar (SStr "csv"))])])
    as (_ & Hsrc & _).
  split.
  - apply (Hret [("type", VScalar (SStr "elasticsearch"))]
                [("type", VScalar (SStr "csv"))]); reflexivity.
  - apply Hsrc. reflexivity.
Defined.

(** C3 as stated fails: all of [source], [dest], [source.type] and
    [dest.type] are there, and [ConfigParserError] is raised, because the
    source type is an empty string. *)
Lemma present_but_empty_type_raises :
  PyDict.get "source" (es_config "" "csv" [])
  = Some (VDict [("type", VScalar (SStr ""))]) /\
  PyDict.get "type" [("type", VScalar (SStr ""))] = Some (VScalar (SStr "")) /\
  PyDict.get "dest" (es_config "" "csv" [])
  = Some (VDict [("type", VScalar (SStr "csv"))]) /\
  PyDict.get "type" [("type", VScalar (SStr "csv"))]
  = Some (VScalar (SStr "csv")) /\
  outcome (parse_config (es_config "" "csv" []))
  = inl (ConfigParserError source_type_undefined).
Proof. repeat split. Qed.

(** A truthy [source] that is not a mapping ends in [AttributeError], not
    in [ConfigParserError]. *)
Example source_not_a_mapping :
  parse_config [("source", VScalar (SStr "elasticsearch"));
                ("dest", VDict [("type", VScalar (SStr "csv"))])]
  = ([no_masked_fields],
     inl (AttributeError "'str' object has no attribute 'get'")).
Proof. reflexivity. Qed.

(** C7 (amended).  For every raw configuration whose [include] entry is
    falsy (absent, [None] or empty): the warning is issued exactly when
    [source] and [dest] are truthy, and it is the only one; it ends
    nothing: when [source] and [dest] are mappings whose [type] entries
    are truthy, [parse_config] issues the warning and returns the
    [Config]. *)
Theorem parse_config_warning_not_fatal (config : dict) :
  truthy (dict_get "include" config) = false ->
  warnings (parse_config config)
  = (if truthy (dict_get "source" config) && truthy (dict_get "dest" config)
     then [no_masked_fields] else []) /\
  (forall s d,
      dict_get "source" config = VDict s ->
      dict_get "dest" config = VDict d ->
      truthy (dict_get "type" s) = true ->
      truthy (dict_get "type" d) = true ->
      parse_config config = ([no_masked_fields], inr (config_of config))).
Proof.
  intros Hinc. split.
  - rewrite parse_config_warnings, Hinc. now rewrite andb_true_r.
  - intros s d Hs Hd Hts Htd.
    pose proof (truthy_type_nonempty s Hts) as Es.
    pose proof (truthy_type_nonempty d Htd) as Ed.
    rewrite <- Hs in Es. rewrite <- Hd in Ed.
    pose proof (parse_config_warnings config) as Hw.
    pose proof (after_type_checks config s d Hs Hd Es Ed) as Ho.
    rewrite Es, Ed, Hinc in Hw. rewrite Hts, Htd in Ho.
    cbn [negb andb] in Hw, Ho.
    unfold warnings, outcome in *.
    destruct (parse_config config) as [w o]. cbn [fst snd] in *.
    now subst.
Qed.

Lemma parse_config_warning_not_fatal_witness :
  truthy (dict_get "include" (es_config "elasticsearch" "csv"
                                        [("include", VList [])])) = false /\
  parse_config (es_config "elasticsearch" "csv" [("include", VList [])])
  = ([no_masked_fields],
     inr (config_of (es_config "elasticsearch" "csv" [("include", VList [])]))).
Proof.
  split; [reflexivity|].
  apply (proj2 (parse_config_warning_not_fatal
                  (es_config "elasticsearch" "csv" [("include", VList [])])
                  eq_refl)
               [("type", VScalar (SStr "elasticsearch"))]
               [("type", VScalar (SStr "csv"))]); reflexivity.
Defined.

(** C7 as stated fails: [include] is empty, the four entries are there,
    and no [Config] is returned, because the destination type is an empty
    string; the warning had been issued before. *)
Lemma warned_then_raised :
  PyDict.get "include" (es_config "elasticsearch" "" [("include", VList [])])
  = Some (VList []) /\
  PyDict.get "source" (es_config "elasticsearch" "" [("include", VList [])])
  = Some (VDict [("type", VScalar (SStr "elasticsearch"))]) /\
  PyDict.get "dest" (es_config "elasticsearch" "" [("include", VList [])])
  = Some (VDict [("type", VScalar (SStr ""))]) /\
  PyDict.get "type" [("type", VScalar (SStr ""))] = Some (VScalar (SStr "")) /\
  parse_config (es_config "elasticsearch" "" [("include", VList [])])
  = ([no_masked_fields], inl (ConfigParserError dest_type_undefined)).
Proof. repeat split. Qed.

(** Without [source] the error comes first: no warning is issued. *)
Example no_warning_before_source_error :
  parse_config [("dest", VDict [("type", VScalar (SStr "csv"))])]
  = ([], inl (ConfigParserError source_undefined)).
Proof. reflexivity. Qed.

End ConfigFacts.

(* ===================================================================== *)
(** * BatchIterator: the groups and the shared cursor *)
(* ===================================================================== *)

Module BatchFacts.
Import Batch.
#[local] Open Scope list_scope.

Section Facts.
Context {A : Type}.
Implicit Types (src rest : list A) (g : @group A).

Abbreviation len := (@List.length _).

(** Calls of [next] on a group whose first element is out: [islice]
    hands out the next elements of the cursor, as many as asked and
    allowed, and leaves the cursor behind them. *)
Lemma take_islice (n : nat) :
  forall b src,
    take n {| prefetched := None; budget := b |} src
    = (firstn (min n b) src,
       {| prefetched := None; budget := b - len (firstn (min n b) src) |},
       skipn (min n b) src).
Proof.
  induction n as [|n IH]; intros b src.
  - cbn. now rewrite Nat.sub_0_r.
  - cbn [take group_next prefetched budget].
    destruct b as [|b]; [reflexivity|].
    destruct src as [|y rest].
    + now rewrite firstn_nil, skipn_nil.
    + rewrite IH. reflexivity.
Qed.

Lemma take_fresh (n : nat) (x : A) (b : nat) src :
  take (S n) {| prefetched := Some x; budget := b |} src
  = (x :: firstn (min n b) src,
     {| prefetched := None; budget := b - len (firstn (min n b) src) |},
     skipn (min n b) src).
Proof. cbn [take group_next prefetched budget]. now rewrite take_islice. Qed.

(** [list(group)] of a fresh group of a generator of size [S k]. *)
Lemma list_group_fresh (x : A) (k : nat) rest :
  fst (fst (list_group {| prefetched := Some x; budget := k |} rest))
  = firstn (S k) (x :: rest) /\
  snd (list_group {| prefetched := Some x; budget := k |} rest)
  = skipn (S k) (x :: rest).
Proof.
  unfold list_group, pending. cbn [prefetched budget Nat.add].
  rewrite take_fresh, Nat.min_id. split; reflexivity.
Qed.

(** A group consumed to its end hands out nothing more: it does not
    start over. *)
Lemma list_group_exhausted (x : A) (k m : nat) rest :
  let '(_, g', src') := list_group {| prefetched := Some x; budget := k |} rest in
  take m g' src' = ([], g', src').
Proof.
  unfold list_group, pending. cbn [prefetched budget Nat.add].
  rewrite take_fresh, Nat.min_id, take_islice.
  rewrite length_firstn.
  destruct (Nat.le_gt_cases k (len rest)) as [Hle|Hgt].
  - replace (k - min k (len rest)) with 0 by lia.
    rewrite Nat.min_0_r. reflexivity.
  - rewrite (skipn_all2 rest) by lia. rewrite firstn_nil, skipn_nil.
    cbn [List.length]. now rewrite Nat.sub_0_r.
Qed.

Lemma consume_nil (size : nat) : consume size (@nil A) = [].
Proof. rewrite consume_equation_1. now destruct size. Qed.

Lemma consume_zero src : consume 0 src = [].
Proof. now rewrite consume_equation_1. Qed.

Lemma consume_cons (k : nat) (x : A) rest :
  consume (S k) (x :: rest)
  = firstn (S k) (x :: rest) :: consume (S k) (skipn (S k) (x :: rest)).
Proof.
  rewrite consume_equation_1. cbn [next_group inspect consume_unfold_clause_1].
  destruct (list_group_fresh x k rest) as [-> ->]. reflexivity.
Qed.

Lemma consume_step (size : nat) src :
  1 <= size -> src <> [] ->
  consume size src = firstn size src :: consume size (skipn size src).
Proof.
  intros Hs Hsrc. destruct size as [|k]; [lia|].
  destruct src as [|x rest]; [congruence|]. apply consume_cons.
Qed.

Lemma run_step (size n : nat) (ds : list nat) src :
  1 <= size -> src <> [] ->
  resume size (n :: ds) src
  = firstn (min n size) src
    :: resume size ds (skipn (max 1 (min n size)) src).
Proof.
  intros Hs Hsrc. destruct size as [|k]; [lia|].
  destruct src as [|x rest]; [congruence|].
  cbn [resume next_group]. destruct n as [|n].
  - reflexivity.
  - rewrite take_fresh. rewrite <- Nat.succ_min_distr.
    rewrite Nat.max_r by lia. reflexivity.
Qed.

(** Without a size, or without elements, the generator returns at once:
    there is no group. *)
Lemma batch_no_group (size : nat) (ds : list nat) src :
  batch src 0 ds = [] /\ batch (@nil A) size ds = [].
Proof. unfold batch. destruct ds, size; split; reflexivity. Qed.

Lemma firstn_then_firstn (m k : nat) :
  forall src, firstn m src ++ firstn k (skipn m src) = firstn (m + k) src.
Proof.
  induction m as [|m IH]; intros src; [reflexivity|].
  destruct src as [|x rest]; [now rewrite !firstn_nil|].
  cbn. now rewrite IH.
Qed.

(** When the consumer takes at least one element from every group,
    what it gets, group after group, is an initial part of the source:
    nothing is skipped, whatever it leaves of a group comes first in
    the following ones. *)
Lemma run_prefix (size : nat) (ds : list nat) :
  1 <= size -> Forall (fun n => 1 <= n) ds ->
  forall src, exists k, List.concat (resume size ds src) = firstn k src.
Proof.
  intros Hs Hds. induction Hds as [|n ds Hn _ IH]; intros src.
  - now exists 0.
  - destruct src as [|x rest].
    + exists 0. now destruct size.
    + rewrite run_step by (try discriminate; exact Hs).
      rewrite Nat.max_r by lia.
      destruct (IH (skipn (min n size) (x :: rest))) as [k Hk].
      exists (min n size + k). cbn [List.concat]. rewrite Hk.
      apply firstn_then_firstn.
Qed.

(** A consumer that takes every group whole gets the groups of
    [consume]. *)
Lemma run_whole (size : nat) (ds : list nat) :
  1 <= size -> Forall (fun n => size <= n) ds ->
  forall src, len src <= len ds -> resume size ds src = consume size src.
Proof.
  intros Hs Hds. induction Hds as [|n ds Hn _ IH]; intros src Hlen.
  - destruct src; [|cbn in Hlen; lia]. now rewrite consume_nil.
  - destruct src as [|x rest].
    + rewrite consume_nil. now destruct size.
    + rewrite run_step, consume_step by (try discriminate; exact Hs).
      rewrite Nat.min_r by exact Hn. rewrite Nat.max_r by lia.
      f_equal. apply IH. rewrite length_skipn. cbn [List.length] in *. lia.
Qed.

Lemma consume_empty_iff (size : nat) src :
  1 <= size -> (consume size src = [] <-> src = []).
Proof.
  intros Hs. split.
  - destruct src as [|x rest]; [reflexivity|].
    rewrite consume_step by (try discriminate; exact Hs). discriminate.
  - intros ->. apply consume_nil.
Qed.

(** The groups of a source consumed group by group: by induction on
    what is left of the source. *)
Lemma consume_groups (size : nat) :
  1 <= size ->
  forall src,
    List.concat (consume size src) = src /\
    Forall (fun grp => 1 <= len grp <= size) (consume size src) /\
    (forall i grp,
        nth_error (consume size src) i = Some grp ->
        S i < len (consume size src) -> len grp = size) /\
    (forall i grp,
        nth_error (consume size src) i = Some grp ->
        grp = firstn size (skipn (i * size) src)).
Proof.
  intros Hs src. remember (len src) as n eqn:E. revert src E.
  induction n as [n IH] using lt_wf_ind. intros src E.
  destruct src as [|x rest].
  - rewrite consume_nil. repeat split; [constructor| |];
      intros [|i] grp Hi; discriminate.
  - rewrite consume_step by (try discriminate; exact Hs).
    set (src := x :: rest) in *.
    assert (Hlt : len (skipn size src) < n).
    { rewrite length_skipn. subst n src. cbn [List.length]. lia. }
    destruct (IH _ Hlt (skipn size src) eq_refl) as (Hcat & Hall & Hfull & Hnth).
    repeat split.
    + cbn [List.concat]. rewrite Hcat. apply firstn_skipn.
    + constructor; [|exact Hall].
      rewrite length_firstn. subst src. cbn [List.length]. lia.
    + intros [|i] grp Hi Hlen.
      * injection Hi as <-. rewrite length_firstn.
        cbn [List.length] in Hlen.
        assert (Hne : skipn size src <> []).
        { intros Hnil. apply (consume_empty_iff size _ Hs) in Hnil.
          rewrite Hnil in Hlen. cbn in Hlen. lia. }
        assert (size < len src).
        { destruct (Nat.lt_ge_cases size (len src)) as [H|H]; [exact H|].
          exfalso. apply Hne. apply skipn_all2. exact H. }
        lia.
      * cbn [nth_error] in Hi. cbn [List.length] in Hlen.
        apply (Hfull i grp Hi). lia.
    + intros [|i] grp Hi.
      * injection Hi as <-. reflexivity.
      * cbn [nth_error] in Hi. rewrite (Hnth i grp Hi).
        rewrite skipn_skipn. f_equal. f_equal. lia.
Qed.
End Facts.

End BatchFacts.

(* ===================================================================== *)
(** * BatchIterator: the properties *)
(* ===================================================================== *)

Module BatchSpec.
Import Batch BatchFacts.
#[local] Open Scope list_scope.

(** C5.  For every finite source and every size >= 1, when each group is
    consumed to its end before the next is asked for, the groups are
    consecutive runs of the source: together they are the source, each
    has between 1 and [size] elements, every group but the last has
    exactly [size], the [i]-th one being the elements [i*size] to
    [(i+1)*size - 1]; the loop is total and ends when the generator
    finds the source exhausted, also inside a group; in particular
    [batch([1,2,3,4,5], 2)] gives [1,2], [3,4], [5]. *)
Theorem batch_groups_of_size {A : Type} (size : nat) (src : list A) :
  1 <= size ->
  List.concat (consume size src) = src /\
  Forall (fun grp => 1 <= List.length grp <= size) (consume size src) /\
  (forall i grp,
      nth_error (consume size src) i = Some grp ->
      S i < List.length (consume size src) -> List.length grp = size) /\
  (forall i grp,
      nth_error (consume size src) i = Some grp ->
      grp = firstn size (skipn (i * size) src)) /\
  next_group size (@nil A) = (None, []) /\
  (forall b, fst (fst (group_next {| prefetched := None; budget := b |}
                                  (@nil A))) = None) /\
  consume 2 [1; 2; 3; 4; 5] = [[1; 2]; [3; 4]; [5]].
Proof.
  intros Hs.
  destruct (consume_groups size Hs src) as (Hcat & Hall & Hfull & Hnth).
  split; [exact Hcat|]. split; [exact Hall|].
  split; [exact Hfull|]. split; [exact Hnth|].
  split; [now destruct size|].
  split; [intros [|b]; reflexivity | reflexivity].
Qed.

Lemma batch_groups_of_size_witness :
  1 <= 2 /\
  List.concat (consume 2 ["a"; "b"; "c"]) = ["a"; "b"; "c"] /\
  consume 2 ["a"; "b"; "c"] = [["a"; "b"]; ["c"]].
Proof.
  split; [lia|]. split; [|reflexivity].
  apply (batch_groups_of_size 2 ["a"; "b"; "c"]). lia.
Defined.

(** C6.  The groups read from the cursor of the generator.  For every
    size >= 1 and non-empty source, when the consumer takes [n] elements
    of a group and asks for the next: it got the first [min n size]
    elements, and the following groups start right behind them, at what
    it left of the group, except that a group of which nothing was taken
    loses its pre-fetched element; so when at least one element of every
    group is taken, what is got group after group is an initial part of
    the source, and it is the division of [consume] when every group is
    taken whole.  A group consumed to its end hands out nothing more. *)
Theorem batch_shares_cursor {A : Type} (size n : nat) (ds : list nat)
        (src : list A) :
  1 <= size -> src <> [] ->
  batch src size (n :: ds)
  = firstn (min n size) src
    :: batch (skipn (max 1 (min n size)) src) size ds /\
  (Forall (fun d => 1 <= d) (n :: ds) ->
   exists k, List.concat (batch src size (n :: ds)) = firstn k src) /\
  (Forall (fun d => size <= d) (n :: ds) ->
   List.length src <= List.length (n :: ds) ->
   batch src size (n :: ds) = consume size src) /\
  (forall (x : A) k m rest,
      let '(_, g', src') :=
        list_group {| prefetched := Some x; budget := k |} rest in
      take m g' src' = ([], g', src')).
Proof.
  intros Hs Hsrc. unfold batch. split; [now apply run_step|].
  split; [intros Hds; now apply run_prefix|].
  split; [intros Hds Hlen; now apply run_whole|].
  intros x k m rest. apply list_group_exhausted.
Qed.

Lemma batch_shares_cursor_witness :
  1 <= 3 /\ [1; 2; 3; 4; 5; 6] <> [] /\
  batch [1; 2; 3; 4; 5; 6] 3 [1; 3; 3] = [[1]; [2; 3; 4]; [5; 6]] /\
  batch [1; 2; 3; 4; 5; 6] 3 [0; 3; 3] = [[]; [2; 3; 4]; [5; 6]] /\
  consume 3 [1; 2; 3; 4; 5; 6] = [[1; 2; 3]; [4; 5; 6]].
Proof.
  split; [lia|]. split; [discriminate|].
  split; [|split; reflexivity].
  pose proof (batch_shares_cursor 3 1 [3; 3] [1; 2; 3; 4; 5; 6]) as H.
  destruct H as (Hstep & _); [lia | discriminate |].
  rewrite Hstep. reflexivity.
Defined.

End BatchSpec.

(* ===================================================================== *)
(** * FieldClassifier: the match predicates *)
(* ===================================================================== *)

Module ClassifierFacts.
Import Classifier.
#[local] Open Scope list_scope.

Lemma truthy_true (a : answer) : truthy a = true <-> a = RTrue.
Proof. destruct a; cbn; split; congruence. Qed.

Lemma is_str_strs (l : list string) : forallb is_str (strs l) = true.
Proof. induction l as [|s l IH]; [reflexivity | exact IH]. Qed.

Lemma in_strs (s : string) (l : list string) :
  In (VScalar (SStr s)) (strs l) <-> In s l.
Proof.
  unfold strs. rewrite in_map_iff. split.
  - intros (s' & E & Hin). now injection E as <-.
  - intros Hin. now exists s.
Qed.

Section Search.
Context {regex : Type} (search : regex -> string -> bool) (r : regex).

Lemma search_each_answer (l : list value) :
  search_each regex search r l = inr RTrue \/
  search_each regex search r l = inr RNone \/
  search_each regex search r l = inl TypeError.
Proof.
  induction l as [|x l IH]; cbn [search_each]; [now right; left|].
  destruct x as [[s|n|b|]|l0|d]; cbn [search_value]; try (now right; right).
  destruct (search r s); [now left | exact IH].
Qed.

Lemma search_each_true (l : list value) :
  search_each regex search r l = inr RTrue <->
  exists pre f post,
    l = strs pre ++ VScalar (SStr f) :: post /\ search r f = true.
Proof.
  induction l as [|x l IH]; cbn [search_each].
  - split; [discriminate|].
    intros (pre & f & post & H & _). destruct pre; discriminate H.
  - destruct x as [[s|n|b|]|l0|d]; cbn [search_value];
      try (split; [discriminate|];
           intros (pre & f & post & H & _); destruct pre; discriminate H).
    destruct (search r s) eqn:E.
    + split; [|reflexivity]. intros _. now exists [], s, l.
    + rewrite IH. split.
      * intros (pre & f & post & -> & Hf). now exists (s :: pre), f, post.
      * intros (pre & f & post & H & Hf). destruct pre as [|p pre]; cbn in H.
        -- injection H as -> _. congruence.
        -- injection H as _ ->. now exists pre, f, post.
Qed.


Lemma search_each_strs (l : list string) :
  search_each regex search r (strs l)
  = inr (if existsb (search r) l then RTrue else RNone).
Proof.
  induction l as [|s l IH]; [reflexivity|].
  cbn [strs map search_each search_value existsb].
  destruct (search r s); [reflexivity | exact IH].
Qed.

End Search.

Lemma py_in_str (word s : string) :
  py_in word (VScalar (SStr s)) = inr true <-> occurs_in word s.
Proof.
  cbn [py_in]. unfold occurs_in. rewrite <- PyStrFacts.contains_iff.
  split; [|now intros ->]. intros H. now injection H.
Qed.


Lemma any_in_true (word : string) (l : list value) :
  any_in word l = inr true -> exists f, In f l /\ py_in word f = inr true.
Proof.
  induction l as [|x l IH]; cbn [any_in]; [discriminate|].
  destruct (py_in word x) as [e|[|]] eqn:E; [discriminate | |].
  - intros _. exists x. split; [now left | exact E].
  - intros H. destruct (IH H) as (f & Hin & Hf). exists f. split; [now right | exact Hf].
Qed.



Lemma any_in_strs (word : string) (l : list string) :
  any_in word (strs l) = inr (existsb (PyStr.contains word) l).
Proof.
  induction l as [|s l IH]; [reflexivity|].
  cbn [strs map any_in py_in existsb].
  destruct (PyStr.contains word s); [reflexivity | exact IH].
Qed.

Lemma keyword_each_answer (words : list string) (l : list value) :
  keyword_each words l = inr RTrue \/
  keyword_each words l = inr RNone \/
  keyword_each words l = inl TypeError.
Proof.
  induction words as [|w words IH]; cbn [keyword_each]; [now right; left|].
  destruct (any_in w l) as [[]|[|]]; [now right; right | now left | exact IH].
Qed.

Lemma keyword_each_true (words : list string) (l : list value) :
  keyword_each words l = inr RTrue ->
  exists f word, In f l /\ In word words /\ py_in word f = inr true.
Proof.
  induction words as [|w words IH]; cbn [keyword_each]; [discriminate|].
  destruct (any_in w l) as [e|[|]] eqn:E; [discriminate | |].
  - intros _. apply any_in_true in E as (f & Hin & Hf).
    exists f, w. repeat split; [exact Hin | now left | exact Hf].
  - intros H. destruct (IH H) as (f & word & Hf & Hw & Hc).
    exists f, word. repeat split; [exact Hf | now right | exact Hc].
Qed.


Lemma keyword_each_strs (words l : list string) :
  keyword_each words (strs l)
  = inr (if existsb (fun word => existsb (PyStr.contains word) l) words
         then RTrue else RNone).
Proof.
  induction words as [|w words IH]; [reflexivity|].
  cbn [keyword_each existsb]. rewrite any_in_strs.
  destruct (existsb (PyStr.contains w) l); [reflexivity | exact IH].
Qed.

Lemma any_word_true (words : list string) (v : value) :
  any_word words v = inr true ->
  exists word, In word words /\ py_in word v = inr true.
Proof.
  induction words as [|w words IH]; cbn [any_word]; [discriminate|].
  destruct (py_in w v) as [e|[|]] eqn:E; [discriminate | |].
  - intros _. exists w. split; [now left | exact E].
  - intros H. destruct (IH H) as (word & Hin & Hw).
    exists word. split; [now right | exact Hw].
Qed.

Lemma contains_keywords_true (v : value) (keywords : option (list string)) :
  contains_keywords v keywords = inr RTrue ->
  exists f word,
    In f (elements v) /\ In word (words_of keywords) /\
    py_in word f = inr true.
Proof.
  destruct keywords as [[|w ws]|]; cbn [contains_keywords words_of];
    [discriminate | | discriminate].
  assert (Hscalar :
            match any_word (w :: ws) v with
            | inl e => inl e
            | inr true => inr RTrue
            | inr false => inr RNone
            end = inr RTrue ->
            exists f word, In f [v] /\ In word (w :: ws) /\ py_in word f = inr true).
  { destruct (any_word (w :: ws) v) as [e|[|]] eqn:E; try discriminate.
    intros _. apply any_word_true in E as (word & Hin & Hw).
    exists v, word. repeat split; [now left | exact Hin | exact Hw]. }
  destruct v as [a|l|d]; cbn [elements]; [exact Hscalar | | exact Hscalar].
  apply keyword_each_true.
Qed.

Lemma keywords_strs_true (l : list string) (keywords : option (list string)) :
  contains_keywords (VList (strs l)) keywords = inr RTrue <->
  exists f word, In f l /\ In word (words_of keywords) /\ occurs_in word f.
Proof.
  split.
  - intros H. apply contains_keywords_true in H as (f & word & Hf & Hw & Hc).
    cbn [elements] in Hf. unfold strs in Hf.
    apply in_map_iff in Hf as (s & <- & Hs).
    exists s, word. repeat split; [exact Hs | exact Hw |].
    now apply py_in_str.
  - intros (f & word & Hf & Hw & Hc).
    destruct keywords as [[|w ws]|]; cbn [contains_keywords words_of] in Hw |- *;
      [destruct Hw | | destruct Hw].
    rewrite keyword_each_strs.
    replace (existsb _ (w :: ws)) with true; [reflexivity|].
    symmetry. apply existsb_exists. exists word. split; [exact Hw|].
    apply existsb_exists. exists f. split; [exact Hf|].
    now apply PyStrFacts.contains_iff.
Qed.





(** The order of the elements decides: with the string first the same
    sequence is a match. *)
Lemma string_first_matches :
  contains_secret string PyStr.contains "secret"
                  (VList [VScalar (SStr "secret"); VScalar (SInt 1)])
  = inr RTrue /\
  contains_keywords (VList [VScalar (SStr "secret"); VScalar (SInt 1)])
                    (Some ["secret"%string])
  = inr RTrue.
Proof. split; reflexivity. Qed.

(** C9.  Whatever the field value, scalar or sequence, [contains_keywords]
    returns [False] when the keyword list is empty or absent; a truthy
    answer always comes from a keyword of the list that is in the value
    or in one of its elements, as a substring when that is a string. *)
Theorem empty_keywords_never_match (v : value) :
  contains_keywords v None = inr RFalse /\
  contains_keywords v (Some []) = inr RFalse /\
  (forall keywords,
      contains_keywords v keywords = inr RTrue ->
      exists word, In word (words_of keywords) /\
                   exists f, In f (elements v) /\
                             py_in word f = inr true /\
                             forall s, f = VScalar (SStr s) -> occurs_in word s).
Proof.
  split; [reflexivity|]. split; [reflexivity|].
  intros keywords H.
  apply contains_keywords_true in H as (f & word & Hf & Hw & Hc).
  exists word. split; [exact Hw|]. exists f.
  split; [exact Hf|]. split; [exact Hc|].
  intros s ->. now apply py_in_str.
Qed.

Lemma empty_keywords_never_match_witness :
  contains_keywords (VList (strs ["secret"; ""])) (Some []) = inr RFalse /\
  exists word, In word ["a@"%string] /\ occurs_in word "a@b.com".
Proof.
  pose proof (empty_keywords_never_match (VList (strs ["secret"; ""])))
    as (_ & Hempty & _).
  pose proof (empty_keywords_never_match (VScalar (SStr "a@b.com")))
    as (_ & _ & Hsome).
  split; [exact Hempty|].
  destruct (Hsome (Some ["a@"%string]) eq_refl)
    as (word & Hw & f & [<-|[]] & _ & Ho).
  exists word. split; [exact Hw|]. now apply Ho.
Defined.

End ClassifierFacts.

(* ===================================================================== *)
(** * HashEngine: the token *)
(* ===================================================================== *)

Module HashFacts.
Import Sha256 Hash.
#[local] Open Scope list_scope.

Lemma w32_range (x : Z) : word32 (w32 x).
Proof.
  unfold word32, w32, mask32.
  change 0xffffffff%Z with (Z.ones 32). rewrite Z.land_ones by lia.
  apply Z.mod_pos_bound. lia.
Qed.

Lemma compress_words32 (h : state) (block : list Z) :
  words32 (compress h block).
Proof.
  unfold compress, words32, add32. cbn [sa sb sc sd se sf sg sh].
  repeat split; apply w32_range.
Qed.

Lemma H0_words32 : words32 H0.
Proof. unfold words32, word32. cbn. lia. Qed.

Lemma blocks_words32 (fuel : nat) :
  forall h bytes, words32 h -> words32 (blocks fuel h bytes).
Proof.
  induction fuel as [|fuel IH]; intros h bytes Hh; [exact Hh|].
  destruct bytes as [|b bytes]; [exact Hh|].
  cbn [blocks]. apply IH, compress_words32.
Qed.

(** The digest is eight words of 32 bits: 256 bits. *)
Lemma sha256_words32 (msg : list Z) : words32 (sha256 msg).
Proof. apply blocks_words32, H0_words32. Qed.

Lemma hex_digit_in (x : Z) : In (hex_digit x) hex_digits.
Proof.
  unfold hex_digit. apply nth_In.
  change 0xf%Z with (Z.ones 4). rewrite Z.land_ones by lia.
  pose proof (Z.mod_pos_bound x (2 ^ 4) ltac:(lia)) as H.
  change (List.length hex_digits) with 16%nat.
  lia.
Qed.

Lemma hex_word_length (x : Z) (tail : string) :
  String.length (hex_word x tail) = 8 + String.length tail.
Proof. reflexivity. Qed.

Lemma hex_word_chars (x : Z) (tail : string) :
  Forall (fun c => In c hex_digits) (list_ascii_of_string tail) ->
  Forall (fun c => In c hex_digits) (list_ascii_of_string (hex_word x tail)).
Proof.
  intros H. unfold hex_word. cbn [list_ascii_of_string].
  repeat (constructor; [apply hex_digit_in|]). exact H.
Qed.

Lemma hexdigest_length (s : state) : String.length (hexdigest s) = 64.
Proof. unfold hexdigest. now rewrite !hex_word_length. Qed.

Lemma hexdigest_chars (s : state) :
  Forall (fun c => In c hex_digits) (list_ascii_of_string (hexdigest s)).
Proof. unfold hexdigest. repeat apply hex_word_chars. constructor. Qed.

(** C2.  For every hash key and value, [hash_value] is the hexadecimal
    SHA-256 digest of the bytes of ["{hashKey}:{value}"]: a function of
    the pair alone, so the same pair gives the same token; the digest is
    eight words of 32 bits and the token is always 64 hexadecimal
    characters, whatever the length of the input. *)
Theorem hash_value_is_sha256_hex (hashkey field_value : scalar) :
  hash_value hashkey field_value
  = hexdigest (sha256 (encode (format hashkey ++ ":" ++ format field_value))) /\
  words32 (sha256 (encode (format hashkey ++ ":" ++ format field_value))) /\
  String.length (hash_value hashkey field_value) = 64 /\
  Forall (fun c => In c hex_digits)
         (list_ascii_of_string (hash_value hashkey field_value)) /\
  (forall hashkey' field_value',
      hashkey' = hashkey -> field_value' = field_value ->
      hash_value hashkey' field_value' = hash_value hashkey field_value) /\
  hash_value (SStr "key") (SStr "a@b.com")
  = "9c8867cb07398c795a4e13afccc4405ac771e80692dc1cb54435c1bee090f3c6".
Proof.
  split; [reflexivity|].
  split; [apply sha256_words32|].
  split; [apply hexdigest_length|].
  split; [apply hexdigest_chars|].
  split; [now intros ? ? -> ->|].
  vm_compute. reflexivity.
Qed.

Lemma hash_value_is_sha256_hex_witness :
  hash_value (SStr "k") (SInt 42)
  = "c24cd9d85f77008060a911c7aad815dfcde3adc11dbd0e6d538fc635f66a2c06" /\
  String.length (hash_value SNone (SBool true)) = 64.
Proof.
  pose proof (hash_value_is_sha256_hex (SStr "k") (SInt 42)) as (Heq & _).
  pose proof (hash_value_is_sha256_hex SNone (SBool true))
    as (_ & _ & Hlen & _).
  split; [|exact Hlen].
  rewrite Heq. vm_compute. reflexivity.
Defined.

(** C10.  Pairs whose formatted strings ["{k}:{v}"] agree get the same
    token, and there are distinct such pairs: [('a', 'b:c')] and
    [('a:b', 'c')]; the token does not determine the pair. *)
Theorem hash_value_not_injective :
  (forall k1 v1 k2 v2,
      keyed k1 v1 = keyed k2 v2 -> hash_value k1 v1 = hash_value k2 v2) /\
  (SStr "a", SStr "b:c") <> (SStr "a:b", SStr "c") /\
  keyed (SStr "a") (SStr "b:c") = keyed (SStr "a:b") (SStr "c") /\
  hash_value (SStr "a") (SStr "b:c") = hash_value (SStr "a:b") (SStr "c").
Proof.
  assert (H : forall k1 v1 k2 v2,
             keyed k1 v1 = keyed k2 v2 -> hash_value k1 v1 = hash_value k2 v2).
  { intros k1 v1 k2 v2 E. unfold hash_value. now rewrite E. }
  split; [exact H|]. split; [discriminate|]. split; [reflexivity|].
  apply H. reflexivity.
Qed.

Lemma hash_value_not_injective_witness :
  hash_value (SStr "1") (SStr "None") = hash_value (SInt 1) SNone /\
  hash_value (SStr "a") (SStr "b:c")
  = "b0ee04f880c4ff4261479e2e7822b7410aee4c7159f4185ad5b0d88a312b495e".
Proof.
  split.
  - apply (proj1 hash_value_not_injective). reflexivity.
  - vm_compute. reflexivity.
Defined.

(** The constants as FIPS 180-4 prints them. *)
Example sha256_constants :
  nth 0 K 0%Z = 0x428a2f98%Z /\ nth 1 K 0%Z = 0x71374491%Z /\
  nth 63 K 0%Z = 0xc67178f2%Z /\ List.length K = 64%nat /\
  sa H0 = 0x6a09e667%Z /\ sh H0 = 0x5be0cd19%Z.
Proof. repeat split. Qed.

Example sha256_vectors :
  hexdigest (sha256 (encode ""))
  = "e3b0c44298fc1c149afbf4c8996fb92427ae41e4649b934ca495991b7852b855" /\
  hexdigest (sha256 (encode "abc"))
  = "ba7816bf8f01cfea414140de5dae2223b00361a396177a9cb410ff61f20015ad".
Proof. split; vm_compute; reflexivity. Qed.

(** Messages that fill one block, need a second one for the padding,
    and span two. *)
Example sha256_block_boundaries :
  hexdigest (sha256 (repeat 97%Z 55))
  = "9f4390f8d30c2dd92ec9f095b65e2b9ae9b0a925a5258e241c9f1e910f734318" /\
  hexdigest (sha256 (repeat 97%Z 56))
  = "b35439a4ac6f0948b6d6f9e3c6af0f5f590ce20f1bde7090ef7970686ec6738a" /\
  hexdigest (sha256 (repeat 97%Z 64))
  = "ffe054fe7ae0cb6dc65c3af9b61d5209f439851db43d0ba5997337df154668eb" /\
  hexdigest (sha256 (repeat 97%Z 119))
  = "31eba51c313a5c08226adf18d4a359cfdfd8d2e816b13f4af952f7ea6584dcfb" /\
  hash_value (SStr "aaaaaaaaaaaaaaaaaaaaaaaaaaaaaaaaaaaaaaaaaaaaaaaaaa")
             (SStr "bbbbbbbbbbbbbbbbbbbbbbbbbbbbbbbbbbbbbbbbbbbbbbbbb")
  = "4fa6285be6bcb275857d31b089a683f280fb20c5b7b06784dda5ec11ae410851".
Proof. repeat split; vm_compute; reflexivity. Qed.

End HashFacts.

(* ===================================================================== *)
(** * Worked examples *)
(* ===================================================================== *)

Example flatten_nest_example :
  Flatten.flatten_nest
    [("a", VDict [("b", VScalar (SInt 1)); ("c", VDict [("d", VList [])])]);
     ("e", VScalar SNone)] "" "."
  = [("a.b", VScalar (SInt 1)); ("a.c.d", VList []); ("e", VScalar SNone)].
Proof. reflexivity. Qed.

Example split_examples :
  PyStr.split "." "a.c.d" = ["a"; "c"; "d"] /\
  PyStr.split "aa" "xaaay" = ["x"; "ay"] /\
  PyStr.split "." "a." = ["a"; ""] /\
  PyStr.split "ab" "abab" = [""; ""; ""].
Proof. repeat split; reflexivity. Qed.

(* ===================================================================== *)
(** * FlattenCodec: laws of [flatten_nest] *)
(* ===================================================================== *)

Module FlattenLaws.
Import PyStr PyStrFacts PyDict PyDictFacts Record RecordFacts Flatten FlattenFacts.
Import Shape.
#[local] Open Scope list_scope.

Lemma get_set_eq (k : string) (v : value) (d : dict) :
  get k (set k v d) = Some v.
Proof.
  induction d as [|[k' v'] d IH]; cbn [set get].
  - now rewrite String.eqb_refl.
  - destruct (String.eqb_spec k k') as [->|Hne]; cbn [get].
    + now rewrite String.eqb_refl.
    + destruct (String.eqb_spec k k'); [contradiction | exact IH].
Qed.

Lemma set_rekey (f : string -> string) (k : string) (v : value) (d : dict) :
  (forall a b, f a = f b -> a = b) ->
  set (f k) v (rekey f d) = rekey f (set k v d).
Proof.
  intros Hinj. induction d as [|[k' v'] d IH]; cbn [rekey map set]; [reflexivity|].
  destruct (String.eqb_spec k k') as [->|Hne].
  - now rewrite String.eqb_refl.
  - destruct (String.eqb_spec (f k) (f k')) as [E|_].
    + elim Hne. now apply Hinj.
    + cbn [map]. f_equal. exact IH.
Qed.

Lemma update_rekey (f : string -> string) (items acc : dict) :
  (forall a b, f a = f b -> a = b) ->
  update (rekey f acc) (rekey f items) = rekey f (update acc items).
Proof.
  intros Hinj. unfold update. revert acc.
  induction items as [|[k v] items IH]; intros acc; [reflexivity|].
  cbn [rekey map fold_left fst snd]. rewrite set_rekey by exact Hinj.
  apply IH.
Qed.

(** [dict] of renamed items is the renamed [dict], for an injective
    renaming. *)
Lemma of_items_rekey (f : string -> string) (items : dict) :
  (forall a b, f a = f b -> a = b) ->
  of_items (rekey f items) = rekey f (of_items items).
Proof. intros Hinj. apply (update_rekey f items [] Hinj). Qed.

Lemma append_injective (q a b : string) : (q ++ a = q ++ b)%string -> a = b.
Proof. apply PyStrFacts.app_inv_head. Qed.

(** Below non-empty keys, a longer prefix only lengthens the keys. *)
Lemma flatten_entry_shift (sep q : string) (v : value) :
  forall nk,
    truthy nk = true ->
    flatten_entry sep (q ++ nk) v
    = rekey (fun k => (q ++ k)%string) (flatten_entry sep nk v).
Proof.
  induction v as [s|l|d IH] using value_dict_ind; intros nk Hnk;
    [reflexivity | reflexivity |].
  cbn [flatten_entry].
  rewrite <- of_items_rekey by (intros a b; apply append_injective).
  f_equal. unfold rekey at 1. apply flat_map_map_in.
  rewrite Forall_forall in IH. apply Forall_forall. intros [k v] Hin.
  assert (Hq : truthy (q ++ nk) = true).
  { destruct q; [exact Hnk | reflexivity]. }
  rewrite (new_key_nested (q ++ nk) sep k Hq).
  pose proof (IH (k, v) Hin (new_key nk sep k) (truthy_new_key _ _ _ Hnk)) as E.
  cbn [snd] in E.
  rewrite PyStrFacts.app_assoc, <- (new_key_nested nk sep k Hnk).
  exact E.
Qed.

Lemma flatten_entry_no_leaf (sep nk : string) (v : value) :
  leaves_entry v = [] -> flatten_entry sep nk v = [].
Proof.
  intros Hv. destruct (flatten_entry sep nk v) as [|[k x] l] eqn:E; [reflexivity|].
  destruct (Emission.flatten_entry_items sep v nk k x) as (_ & q & Hq & _).
  - rewrite E. now left.
  - rewrite Hv in Hq. destruct Hq.
Qed.

(** X1.  A mapping whose values are all leaves and whose keys are
    distinct is flattened to itself, whatever the separator. *)
Theorem flatten_nest_flat_fixed (d : dict) (sep : string) :
  flat d = true -> keys_distinct d = true -> flatten_nest d "" sep = d.
Proof.
  intros Hflat Hkeys. unfold flatten_nest.
  replace (flat_map _ d) with d.
  - apply of_items_nodup. now apply distinct_NoDup.
  - unfold flat in Hflat. rewrite forallb_forall in Hflat.
    clear Hkeys. induction d as [|[k v] d IH]; [reflexivity|].
    cbn [flat_map]. rewrite new_key_top.
    rewrite flatten_entry_leaf
      by (apply negb_true_iff, (Hflat (k, v)); now left).
    cbn [app]. f_equal. apply IH. intros kv Hin. apply Hflat. now right.
Qed.

Lemma flatten_nest_flat_fixed_witness :
  flatten_nest [("user.email", VScalar (SStr "a@b.com"));
                ("tags", VList [VScalar (SStr "x")])] "" "/"
  = [("user.email", VScalar (SStr "a@b.com"));
     ("tags", VList [VScalar (SStr "x")])].
Proof. apply flatten_nest_flat_fixed; reflexivity. Defined.

Lemma flatten_nest_is_flat (d : dict) (p sep : string) :
  flat (flatten_nest d p sep) = true /\
  keys_distinct (flatten_nest d p sep) = true.
Proof.
  split.
  - unfold flat. apply forallb_forall. intros [k x] Hin.
    apply negb_true_iff.
    apply (Emission.flatten_entry_items sep (VDict d) p k x Hin).
  - apply distinct_NoDup, of_items_keys_nodup.
Qed.

(** X2.  Flattening is idempotent: flattening a result again, with any
    separator, changes nothing. *)
Theorem flatten_nest_idempotent (d : dict) (p sep sep' : string) :
  flatten_nest (flatten_nest d p sep) "" sep' = flatten_nest d p sep.
Proof.
  destruct (flatten_nest_is_flat d p sep) as [Hflat Hkeys].
  unfold flatten_nest at 1.
  replace (flat_map _ (flatten_nest d p sep)) with (flatten_nest d p sep).
  - apply of_items_nodup. now apply distinct_NoDup.
  - unfold flat in Hflat. rewrite forallb_forall in Hflat.
    clear Hkeys. induction (flatten_nest d p sep) as [|[k v] l IH]; [reflexivity|].
    cbn [flat_map]. rewrite new_key_top.
    rewrite flatten_entry_leaf
      by (apply negb_true_iff, (Hflat (k, v)); now left).
    cbn [app]. f_equal. apply IH. intros kv Hin. apply Hflat. now right.
Qed.

(** X3.  Flattening below a non-empty parent key [P] is flattening at
    the top and putting [P + sep] before every key, when the empty string
    is not a top-level key bound to a mapping. *)
Theorem flatten_nest_under_parent (d : dict) (p sep : string) :
  truthy p = true ->
  empty_key_is_leaf d = true ->
  flatten_nest d p sep
  = rekey (fun k => (p ++ sep ++ k)%string) (flatten_nest d "" sep).
Proof.
  intros Hp He. unfold flatten_nest.
  rewrite <- of_items_rekey
    by (intros a b E; apply append_injective in E;
        now apply append_injective in E).
  f_equal. unfold rekey. apply flat_map_map_in.
  unfold empty_key_is_leaf in He. rewrite forallb_forall in He.
  apply Forall_forall. intros [k v] Hin. specialize (He _ Hin). cbn in He.
  rewrite new_key_top, (new_key_nested p sep k Hp).
  apply orb_true_iff in He as [Hk|Hv].
  - rewrite <- PyStrFacts.app_assoc.
    rewrite (flatten_entry_shift sep (p ++ sep) v k Hk).
    unfold rekey. apply map_ext. intros [k' x].
    now rewrite PyStrFacts.app_assoc.
  - apply negb_true_iff in Hv. now rewrite !flatten_entry_leaf by exact Hv.
Qed.

Lemma flatten_nest_under_parent_witness :
  flatten_nest [("b", VDict [("c", VScalar (SInt 1))]); ("d", VScalar SNone)]
               "a" "."
  = [("a.b.c", VScalar (SInt 1)); ("a.d", VScalar SNone)].
Proof.
  rewrite (flatten_nest_under_parent
             [("b", VDict [("c", VScalar (SInt 1))]); ("d", VScalar SNone)]
             "a" "." eq_refl eq_refl).
  reflexivity.
Defined.

(** X4.  A pair whose value holds no leaf, an empty mapping or mappings
    of empty mappings, leaves no trace: the result is that of the mapping
    without the pair. *)
Theorem flatten_nest_drops_leafless (d1 d2 : dict) (k : string) (v : value)
        (p sep : string) :
  leaves_entry v = [] ->
  flatten_nest (d1 ++ (k, v) :: d2) p sep = flatten_nest (d1 ++ d2) p sep.
Proof.
  intros Hv. unfold flatten_nest. rewrite !flat_map_app. cbn [flat_map].
  now rewrite (flatten_entry_no_leaf sep _ v Hv).
Qed.

Lemma flatten_nest_drops_leafless_witness :
  flatten_nest [("a", VScalar (SInt 1));
                ("gone", VDict [("x", VDict []); ("y", VDict [])]);
                ("b", VScalar (SInt 2))] "" "."
  = [("a", VScalar (SInt 1)); ("b", VScalar (SInt 2))].
Proof.
  exact (flatten_nest_drops_leafless [("a", VScalar (SInt 1))]
           [("b", VScalar (SInt 2))] "gone"
           (VDict [("x", VDict []); ("y", VDict [])]) "" "." eq_refl).
Defined.

(** X5.  The pair written last wins: after a final pair whose value is a
    leaf, the result binds its new key to that value, whatever the
    earlier pairs produced under the same key. *)
Theorem flatten_nest_last_wins (d : dict) (p sep k : string) (v : value) :
  is_mapping v = false ->
  get (new_key p sep k) (flatten_nest (d ++ [(k, v)]) p sep) = Some v.
Proof.
  intros Hv. rewrite Emission.flatten_nest_snoc, flatten_entry_leaf by exact Hv.
  unfold update. cbn [fold_left fst snd]. apply get_set_eq.
Qed.

Lemma flatten_nest_last_wins_witness :
  get "a.b" (flatten_nest [("a", VDict [("b", VScalar (SInt 1))]);
                           ("a.b", VScalar (SInt 2))] "" ".")
  = Some (VScalar (SInt 2)).
Proof.
  apply (flatten_nest_last_wins [("a", VDict [("b", VScalar (SInt 1))])]
           "" "." "a.b" (VScalar (SInt 2)) eq_refl).
Defined.

End FlattenLaws.

(* ===================================================================== *)
(** * ConfigModel: what [parse_config] reads and returns *)
(* ===================================================================== *)

Module ConfigLaws.
Import Config ConfigFacts.
Import Shape.
#[local] Open Scope list_scope.

Lemma get_set_ne (k k' : string) (v : value) (d : dict) :
  k <> k' -> PyDict.get k' (PyDict.set k v d) = PyDict.get k' d.
Proof.
  intros Hne. induction d as [|[k0 v0] d IH]; cbn [PyDict.set PyDict.get].
  - destruct (String.eqb_spec k' k) as [->|_]; [congruence | reflexivity].
  - destruct (String.eqb_spec k k0) as [->|_]; cbn [PyDict.get].
    + destruct (String.eqb_spec k' k0) as [->|_]; [congruence | reflexivity].
    + now rewrite IH.
Qed.

Lemma dict_get_set_ne (k k' : string) (v : value) (d : dict) :
  k <> k' -> dict_get k' (PyDict.set k v d) = dict_get k' d.
Proof. intros Hne. unfold dict_get. now rewrite get_set_ne. Qed.

(** X6.  Only seven keys are read: setting any other key of the raw
    configuration changes neither the warnings nor the outcome. *)
Theorem parse_config_ignores_other_keys (config : dict) (k : string) (v : value) :
  ~ In k read_keys ->
  parse_config (PyDict.set k v config) = parse_config config.
Proof.
  intros Hk. unfold parse_config.
  assert (H : forall k', In k' read_keys ->
                         dict_get k' (PyDict.set k v config) = dict_get k' config).
  { intros k' Hin. apply dict_get_set_ne. intros ->. now apply Hk. }
  rewrite !H by (cbn; tauto). reflexivity.
Qed.

Lemma parse_config_ignores_other_keys_witness :
  parse_config (PyDict.set "comment" (VScalar (SStr "x"))
                           (es_config "elasticsearch" "csv" []))
  = parse_config (es_config "elasticsearch" "csv" []).
Proof.
  apply parse_config_ignores_other_keys. cbn.
  intros [H|[H|[H|[H|[H|[H|[H|[]]]]]]]]; discriminate H.
Defined.

(** X7.  A returned [Config] is made of the entries of the raw
    configuration, and its [source] and [dest] are mappings whose [type]
    is truthy. *)
Theorem parse_config_returns_typed (config : dict) (cfg : Config) :
  outcome (parse_config config) = inr cfg ->
  cfg = config_of config /\
  exists s d,
    source cfg = VDict s /\ dest cfg = VDict d /\
    truthy (dict_get "type" s) = true /\ truthy (dict_get "type" d) = true.
Proof.
  intros Hret.
  destruct (truthy (dict_get "source" config)) eqn:Es;
    [|rewrite (raises_source_undefined config Es) in Hret; discriminate].
  destruct (truthy (dict_get "dest" config)) eqn:Ed;
    [|rewrite (raises_dest_undefined config Es Ed) in Hret; discriminate].
  destruct (Record.is_mapping (dict_get "source" config)
            && Record.is_mapping (dict_get "dest" config)) eqn:Hm.
  - apply andb_true_iff in Hm as [Hs Hd].
    destruct (dict_get "source" config) as [a|l|s] eqn:Esrc; try discriminate.
    destruct (dict_get "dest" config) as [a|l|d] eqn:Edst; try discriminate.
    assert (Es' : truthy (dict_get "source" config) = true) by now rewrite Esrc.
    assert (Ed' : truthy (dict_get "dest" config) = true) by now rewrite Edst.
    rewrite (after_type_checks config s d Esrc Edst Es' Ed') in Hret.
    destruct (truthy (dict_get "type" s)) eqn:Ets; [|discriminate].
    destruct (truthy (dict_get "type" d)) eqn:Etd; [|discriminate].
    injection Hret as <-. split; [reflexivity|].
    exists s, d. cbn [config_of source dest]. now rewrite Esrc, Edst.
  - destruct (raises_attribute_error config Es Ed Hm) as [msg Hmsg].
    rewrite Hmsg in Hret. discriminate.
Qed.

Lemma parse_config_returns_typed_witness :
  exists s d,
    source (config_of (es_config "elasticsearch" "csv" [])) = VDict s /\
    dest (config_of (es_config "elasticsearch" "csv" [])) = VDict d /\
    truthy (dict_get "type" s) = true /\ truthy (dict_get "type" d) = true.
Proof.
  apply (parse_config_returns_typed (es_config "elasticsearch" "csv" [])
           (config_of (es_config "elasticsearch" "csv" [])) eq_refl).
Defined.

(** X8.  When [source] and [dest] are truthy and one of them is not a
    mapping, [parse_config] ends in [AttributeError] on the first of them
    that is not one, after the warning on missing masked fields, if any,
    has been issued. *)
Theorem parse_config_attribute_error (config : dict) :
  truthy (dict_get "source" config) = true ->
  truthy (dict_get "dest" config) = true ->
  Record.is_mapping (dict_get "source" config)
  && Record.is_mapping (dict_get "dest" config) = false ->
  parse_config config
  = ((if truthy (dict_get "include" config) then [] else [no_masked_fields]),
     inl (AttributeError
            ("'" ++ type_name (first_non_mapping (dict_get "source" config)
                                                 (dict_get "dest" config))
                 ++ "' object has no attribute 'get'")%string)).
Proof.
  intros Es Ed Hm. unfold parse_config, first_non_mapping.
  rewrite Es, Ed. cbn [negb when].
  destruct (truthy (dict_get "include" config));
    (destruct (dict_get "source" config) as [s|l|s];
     [ destruct s; reflexivity | reflexivity | ];
     destruct (dict_get "dest" config) as [d|l|d];
     [ destruct d; reflexivity | reflexivity | discriminate ]).
Qed.

Lemma parse_config_attribute_error_witness :
  parse_config [("source", VDict [("type", VScalar (SStr "elasticsearch"))]);
                ("dest", VList [VScalar (SStr "csv")]);
                ("include", VList [VScalar (SStr "user.email")])]
  = ([], inl (AttributeError "'list' object has no attribute 'get'")).
Proof.
  apply (parse_config_attribute_error
           [("source", VDict [("type", VScalar (SStr "elasticsearch"))]);
            ("dest", VList [VScalar (SStr "csv")]);
            ("include", VList [VScalar (SStr "user.email")])]);
    reflexivity.
Defined.

End ConfigLaws.

(* ===================================================================== *)
(** * BatchIterator: laws of the groups *)
(* ===================================================================== *)

Module BatchLaws.
Import Batch BatchRead BatchFacts.
#[local] Open Scope list_scope.

Section Laws.
Context {A : Type}.
Implicit Types (src rest a b grp : list A).

Abbreviation len := (@List.length _).

Lemma consume_whole (size : nat) src :
  src <> [] -> len src <= size -> consume size src = [src].
Proof.
  intros Hne Hlen.
  assert (Hs : 1 <= size) by (destruct src; [congruence | cbn in Hlen; lia]).
  rewrite consume_step by assumption.
  rewrite firstn_all2 by exact Hlen. rewrite skipn_all2 by exact Hlen.
  now rewrite consume_nil.
Qed.

Lemma consume_app_group (size : nat) grp rest :
  1 <= size -> len grp = size ->
  consume size (grp ++ rest) = grp :: consume size rest.
Proof.
  intros Hs Hg. rewrite consume_step; [|exact Hs|].
  - rewrite firstn_app, skipn_app, Hg, Nat.sub_diag.
    rewrite firstn_all2, skipn_all2 by lia.
    cbn [firstn skipn]. now rewrite app_nil_r.
  - destruct grp; [cbn in Hg; lia | discriminate].
Qed.

(** X9.  For a size of at least 1 the number of groups is the length of
    the source divided by the size, rounded up. *)
Theorem batch_group_count (size : nat) src :
  1 <= size ->
  len (consume size src) = (len src + size - 1) / size.
Proof.
  intros Hs. remember (len src) as n eqn:E. revert src E.
  induction n as [n IH] using lt_wf_ind. intros src E.
  destruct src as [|x rest].
  - rewrite consume_nil. cbn [List.length] in *. subst n.
    symmetry. apply Nat.div_small. lia.
  - rewrite consume_step by (try discriminate; exact Hs).
    set (src := x :: rest) in *. cbn [List.length].
    assert (Hn : 1 <= n) by (subst n src; cbn; lia).
    assert (Hlt : len (skipn size src) < n) by (rewrite length_skipn; lia).
    rewrite (IH _ Hlt (skipn size src) eq_refl), length_skipn, <- E.
    destruct (Nat.le_gt_cases size n) as [Hle|Hgt].
    + replace (n + size - 1) with ((n - size + size - 1) + 1 * size) by lia.
      rewrite Nat.div_add by lia. lia.
    + replace (n - size) with 0 by lia.
      rewrite (Nat.div_small (0 + size - 1)) by lia.
      apply (Nat.div_unique _ _ 1 (n - 1)); lia.
Qed.

(** X10.  Groups do not straddle a multiple of the size: when the length
    of [a] is a multiple of the size, the groups of [a ++ b] are those of
    [a] followed by those of [b]. *)
Theorem batch_groups_app (size k : nat) a b :
  1 <= size -> len a = k * size ->
  consume size (a ++ b) = consume size a ++ consume size b.
Proof.
  intros Hs. revert a. induction k as [|k IH]; intros a Ha.
  - destruct a; [|discriminate]. now rewrite consume_nil.
  - assert (Hf : len (firstn size a) = size) by (rewrite length_firstn; lia).
    assert (Hr : len (skipn size a) = k * size) by (rewrite length_skipn; lia).
    rewrite <- (firstn_skipn size a).
    generalize dependent (skipn size a). generalize dependent (firstn size a).
    intros f Hf r Hr.
    rewrite <- app_assoc.
    rewrite (consume_app_group size f (r ++ b)) by assumption.
    rewrite (consume_app_group size f r) by assumption.
    cbn [app]. f_equal. now apply IH.
Qed.

(** X11.  A source that is not empty and no longer than the size comes
    out as one group holding all of it. *)
Theorem batch_single_group (size : nat) src :
  src <> [] -> len src <= size -> consume size src = [src].
Proof. apply consume_whole. Qed.

(** X12.  Groups of [size] elements followed by one that is not empty
    and no longer than [size] are what [batch] makes of their
    concatenation: regrouping is the inverse of concatenating. *)
Theorem batch_regroups (size : nat) (groups : list (list A)) (last : list A) :
  Forall (fun grp => len grp = size) groups ->
  last <> [] -> len last <= size ->
  consume size (List.concat (groups ++ [last])) = groups ++ [last].
Proof.
  intros Hall Hne Hlen.
  assert (Hs : 1 <= size) by (destruct last; [congruence | cbn in Hlen; lia]).
  induction Hall as [|grp groups Hg _ IH].
  - cbn [app List.concat]. rewrite app_nil_r. now apply consume_whole.
  - cbn [app List.concat]. rewrite consume_app_group by assumption.
    now rewrite IH.
Qed.

(** X13.  With size 0 the generator returns at once and takes nothing
    from the source: no group, whatever the source and the consumer. *)
Theorem batch_size_zero (ds : list nat) src :
  batch src 0 ds = [] /\ consume 0 src = [] /\ next_group 0 src = (None, src).
Proof.
  split; [|split].
  - unfold batch. now destruct ds.
  - apply consume_zero.
  - reflexivity.
Qed.

Lemma request_unread (size n : nat) src :
  1 <= size ->
  request size n src
  = (map (fun x => {| prefetched := Some x; budget := size - 1 |}) (firstn n src),
     skipn n src).
Proof.
  intros Hs. destruct size as [|k]; [lia|].
  replace (S k - 1) with k by lia. clear Hs. revert src.
  induction n as [|n IH]; intros src; [reflexivity|].
  destruct src as [|x rest]; [reflexivity|].
  cbn [request next_group firstn skipn map]. now rewrite IH.
Qed.

Lemma read_all_exhausted (k : nat) src :
  read_all (map (fun x => {| prefetched := Some x; budget := k |}) src) []
  = (map (fun x => [x]) src, []).
Proof.
  induction src as [|x rest IH]; [reflexivity|].
  cbn [map read_all]. unfold list_group, pending.
  cbn [prefetched budget Nat.add take group_next].
  replace (take k {| prefetched := None; budget := k |} [])
    with (@nil A, {| prefetched := @None A; budget := k |}, @nil A)
    by (now destruct k).
  now rewrite IH.
Qed.

(** X14.  A consumer that asks for group after group without reading
    any gets one group for every element of the source, not one for every
    [size] elements: each request takes only the pre-fetched element from
    the cursor.  The element stays in its group: when the whole source has
    gone this way, reading the groups afterwards gives every element alone
    in a group of its own. *)
Theorem batch_unread_groups (size n : nat) src :
  1 <= size ->
  batch src size (repeat 0 n) = repeat [] (min n (len src)) /\
  request size n src
  = (map (fun x => {| prefetched := Some x; budget := size - 1 |}) (firstn n src),
     skipn n src) /\
  (len src <= n ->
   read_all (fst (request size n src)) (snd (request size n src))
   = (map (fun x => [x]) src, [])).
Proof.
  intros Hs. split; [|split].
  - unfold batch. revert src.
    induction n as [|n IH]; intros src; [reflexivity|].
    destruct src as [|x rest].
    + cbn [repeat resume]. now destruct size.
    + cbn [repeat]. rewrite run_step by (try discriminate; exact Hs).
      cbn [Nat.min Nat.max firstn skipn List.length repeat]. now rewrite IH.
  - now apply request_unread.
  - intros Hn. rewrite request_unread by exact Hs. cbn [fst snd].
    rewrite firstn_all2, skipn_all2 by exact Hn.
    apply read_all_exhausted.
Qed.

End Laws.

Lemma batch_group_count_witness :
  1 <= 3 /\ List.length (consume 3 [1; 2; 3; 4; 5; 6; 7]) = 3.
Proof.
  split; [lia|]. rewrite (batch_group_count 3 [1; 2; 3; 4; 5; 6; 7]) by lia.
  reflexivity.
Defined.

Lemma batch_groups_app_witness :
  1 <= 2 /\ List.length [1; 2; 3; 4] = 2 * 2 /\
  consume 2 ([1; 2; 3; 4] ++ [5; 6; 7]) = [[1; 2]; [3; 4]; [5; 6]; [7]].
Proof.
  split; [lia|]. split; [reflexivity|].
  rewrite (batch_groups_app 2 2 [1; 2; 3; 4] [5; 6; 7]) by (lia || reflexivity).
  reflexivity.
Defined.

Lemma batch_single_group_witness :
  consume 10 ["a"; "b"; "c"] = [["a"; "b"; "c"]].
Proof.
  apply (batch_single_group 10 ["a"; "b"; "c"]); [discriminate | cbn; lia].
Defined.

Lemma batch_regroups_witness :
  consume 2 (List.concat ([[1; 2]; [3; 4]] ++ [[5]])) = [[1; 2]; [3; 4]] ++ [[5]].
Proof.
  apply (batch_regroups 2 [[1; 2]; [3; 4]] [5]);
    [repeat constructor | discriminate | cbn; lia].
Defined.

Lemma batch_unread_groups_witness :
  1 <= 2 /\
  batch [1; 2; 3] 2 (repeat 0 5) = [[]; []; []] /\
  read_all (fst (request 2 5 [1; 2; 3])) (snd (request 2 5 [1; 2; 3]))
  = ([[1]; [2]; [3]], []).
Proof.
  split; [lia|].
  destruct (batch_unread_groups 2 5 [1; 2; 3]) as (Hb & _ & Hr); [lia|].
  split; [exact Hb|]. apply Hr. cbn. lia.
Defined.

End BatchLaws.

(* ===================================================================== *)
(** * FieldClassifier: laws of the match predicates *)
(* ===================================================================== *)

Module ClassifierLaws.
Import Classifier ClassifierFacts.
#[local] Open Scope list_scope.

Lemma secret_str_true {regex : Type} (search : regex -> string -> bool)
      (r : regex) (f : string) :
  contains_secret regex search r (VScalar (SStr f)) = inr RTrue <->
  search r f = true.
Proof.
  cbn [contains_secret search_value].
  destruct (search r f); split; congruence.
Qed.

Lemma secrets_strs_true {regex : Type} (search : regex -> string -> bool)
      (r : regex) (l : list string) :
  contains_secret regex search r (VList (strs l)) = inr RTrue <->
  exists f, In f l /\ search r f = true.
Proof.
  cbn [contains_secret]. rewrite search_each_strs.
  destruct (existsb (search r) l) eqn:E.
  - split; [|reflexivity]. intros _. now apply existsb_exists.
  - split; [discriminate|]. intros H. apply existsb_exists in H. congruence.
Qed.

Lemma any_word_str (words : list string) (f : string) :
  any_word words (VScalar (SStr f))
  = inr (existsb (fun word => PyStr.contains word f) words).
Proof.
  induction words as [|w words IH]; [reflexivity|].
  cbn [any_word py_in existsb].
  destruct (PyStr.contains w f); [reflexivity | exact IH].
Qed.

Lemma keywords_str_true (f : string) (keywords : option (list string)) :
  contains_keywords (VScalar (SStr f)) keywords = inr RTrue <->
  exists word, In word (words_of keywords) /\ occurs_in word f.
Proof.
  destruct keywords as [[|w ws]|]; cbn [contains_keywords words_of].
  - split; [discriminate | intros (word & [] & _)].
  - rewrite any_word_str.
    destruct (existsb (fun word => PyStr.contains word f) (w :: ws)) eqn:E.
    + split; [|reflexivity]. intros _.
      apply existsb_exists in E as (word & Hin & Hc).
      exists word. split; [exact Hin|]. now apply PyStrFacts.contains_iff.
    + split; [discriminate|]. intros (word & Hin & Hc).
      exfalso. apply not_true_iff_false in E. apply E.
      apply existsb_exists. exists word. split; [exact Hin|].
      now apply PyStrFacts.contains_iff.
  - split; [discriminate | intros (word & [] & _)].
Qed.

(** X15.  A sequence of strings matches exactly when one of its
    elements, taken as a scalar field value, matches: for the pattern and
    for the keywords.  For a sequence of any values a match of the pattern
    still is a match of one of its elements taken alone. *)
Theorem sequence_matches_like_its_elements
        {regex : Type} (search : regex -> string -> bool) (r : regex)
        (l : list string) (vs : list value)
        (keywords : option (list string)) :
  (contains_secret regex search r (VList (strs l)) = inr RTrue
   <-> exists f, In f l /\
                 contains_secret regex search r (VScalar (SStr f)) = inr RTrue) /\
  (contains_keywords (VList (strs l)) keywords = inr RTrue
   <-> exists f, In f l /\
                 contains_keywords (VScalar (SStr f)) keywords = inr RTrue) /\
  (contains_secret regex search r (VList vs) = inr RTrue ->
   exists v, In v vs /\ contains_secret regex search r v = inr RTrue).
Proof.
  split; [|split].
  - rewrite secrets_strs_true. split; intros (f & Hin & Hf); exists f;
      (split; [exact Hin|]); now apply secret_str_true.
  - rewrite keywords_strs_true. split.
    + intros (f & word & Hin & Hw & Ho). exists f. split; [exact Hin|].
      apply keywords_str_true. now exists word.
    + intros (f & Hin & Hf). apply keywords_str_true in Hf as (word & Hw & Ho).
      now exists f, word.
  - cbn [contains_secret]. intros H.
    apply search_each_true in H as (pre & f & post & -> & Hf).
    exists (VScalar (SStr f)). split; [apply in_or_app; right; now left|].
    now apply secret_str_true.
Qed.

(** X16.  The predicates do not answer [False] for "no match": without
    a match the body falls through and the answer is [None];
    [contains_secret] never returns [False], and [contains_keywords]
    returns [False] exactly when the keyword list is empty or absent. *)
Theorem no_match_is_none
        {regex : Type} (search : regex -> string -> bool) (r : regex)
        (v : value) (keywords : option (list string)) :
  contains_secret regex search r v <> inr RFalse /\
  (contains_keywords v keywords = inr RFalse <-> words_of keywords = []) /\
  (forall a, contains_secret regex search r v = inr a ->
             truthy a = false -> a = RNone).
Proof.
  assert (Hs : contains_secret regex search r v = inr RTrue \/
               contains_secret regex search r v = inr RNone \/
               contains_secret regex search r v = inl TypeError).
  { destruct v as [[s|n|b|]|l|d]; cbn [contains_secret search_value];
      try (now right; right); [|apply search_each_answer].
    destruct (search r s); [now left | now right; left]. }
  split; [destruct Hs as [-> | [-> | ->]]; discriminate|].
  split.
  - destruct keywords as [[|w ws]|]; cbn [contains_keywords words_of];
      [tauto | | tauto].
    split; [|discriminate].
    assert (Hscalar : forall x,
               match any_word (w :: ws) x with
               | inl e => inl e
               | inr true => inr RTrue
               | inr false => inr RNone
               end <> @inr exn answer RFalse).
    { intros x. destruct (any_word (w :: ws) x) as [e|[|]]; discriminate. }
    destruct v as [a|l|d]; intros H;
      [now apply Hscalar in H | | now apply Hscalar in H].
    destruct (keyword_each_answer (w :: ws) l) as [E | [E | E]];
      rewrite E in H; discriminate H.
  - intros a Ha Ht. destruct Hs as [E | [E | E]]; rewrite E in Ha.
    + injection Ha as <-. discriminate Ht.
    + now injection Ha as <-.
    + discriminate Ha.
Qed.

Lemma no_match_is_none_witness :
  contains_keywords (VScalar (SStr "nothing here")) None = inr RFalse /\
  contains_secret string PyStr.contains "secret"
                  (VScalar (SStr "nothing here")) = inr RNone.
Proof.
  pose proof (no_match_is_none PyStr.contains "secret"
                               (VScalar (SStr "nothing here")) None)
    as (_ & Hk & H).
  split; [apply Hk; reflexivity|].
  exact (f_equal (@inr exn answer) (H RNone eq_refl eq_refl)).
Defined.

(** X17.  An empty string among the keywords matches every string and
    every sequence of strings that has an element. *)
Theorem empty_keyword_matches_all (words ss : list string) (s : string) :
  In ""%string words -> ss <> [] ->
  contains_keywords (VScalar (SStr s)) (Some words) = inr RTrue /\
  contains_keywords (VList (strs ss)) (Some words) = inr RTrue.
Proof.
  intros Hw Hss. split.
  - apply keywords_str_true. exists ""%string. split; [exact Hw|].
    now exists ""%string, s.
  - apply keywords_strs_true. destruct ss as [|f fs]; [congruence|].
    exists f, ""%string. repeat split; [now left | exact Hw |].
    now exists ""%string, f.
Qed.

Lemma empty_keyword_matches_all_witness :
  contains_keywords (VScalar (SStr "anything")) (Some ["token"; ""]%string)
  = inr RTrue /\
  contains_keywords (VList (strs ["anything"])) (Some ["token"; ""]%string)
  = inr RTrue.
Proof.
  apply empty_keyword_matches_all; [right; now left | discriminate].
Defined.

(** X18.  On sequences of strings more elements and more keywords only
    add matches: a sequence that matches still does after strings are
    added or the elements reordered, and so with the keywords.  A match
    of the pattern is kept whatever values are appended. *)
Theorem match_is_monotone
        {regex : Type} (search : regex -> string -> bool) (r : regex)
        (l l' words words' : list string) (vs more : list value) :
  incl l l' -> incl words words' ->
  (contains_secret regex search r (VList (strs l)) = inr RTrue ->
   contains_secret regex search r (VList (strs l')) = inr RTrue) /\
  (contains_keywords (VList (strs l)) (Some words) = inr RTrue ->
   contains_keywords (VList (strs l')) (Some words') = inr RTrue) /\
  (contains_secret regex search r (VList vs) = inr RTrue ->
   contains_secret regex search r (VList (vs ++ more)) = inr RTrue).
Proof.
  intros Hl Hw. split; [|split]; intros H.
  - apply secrets_strs_true in H as (f & Hin & Hf).
    apply secrets_strs_true. exists f. split; [now apply Hl | exact Hf].
  - apply keywords_strs_true in H as (f & word & Hin & Hword & Ho).
    apply keywords_strs_true. exists f, word.
    repeat split; [now apply Hl | now apply Hw | exact Ho].
  - cbn [contains_secret] in H |- *.
    apply search_each_true in H as (pre & f & post & -> & Hf).
    apply search_each_true. exists pre, f, (post ++ more).
    split; [|exact Hf]. now rewrite <- List.app_assoc.
Qed.

Lemma match_is_monotone_witness :
  contains_keywords (VList (strs ["ok"; "my password"]))
                    (Some ["token"; "pass"]%string) = inr RTrue.
Proof.
  apply (proj1 (proj2 (match_is_monotone PyStr.contains "" ["my password"]
                  ["ok"; "my password"] ["pass"] ["token"; "pass"] [] []
                  ltac:(intros x [<-|[]]; right; now left)
                  ltac:(intros x [<-|[]]; right; now left)))).
  reflexivity.
Defined.

End ClassifierLaws.

(* ===================================================================== *)
(** * Facts about [strip] *)
(* ===================================================================== *)

Module PyStripFacts.
Import PyStr PyStrFacts PyStrip.
#[local] Open Scope string_scope.

Lemma lstrip_step (s : string) :
  lstrip s = match space_len s with O => s | S k => lstrip (drop (S k) s) end.
Proof.
  rewrite lstrip_equation_1. unfold lstrip_unfold_clause_1. cbn.
  destruct (space_len s); reflexivity.
Qed.

Lemma all_space_step (s : string) :
  all_space s = match space_len s with
                | O => match s with EmptyString => true | String _ _ => false end
                | S k => all_space (drop (S k) s)
                end.
Proof.
  rewrite all_space_equation_1. unfold all_space_unfold_clause_1. cbn.
  destruct (space_len s); reflexivity.
Qed.

Lemma drop_suffix (n : nat) (s : string) : exists p, s = p ++ drop n s.
Proof.
  revert s; induction n as [|n IH]; intros s; [now exists ""|].
  destruct s as [|a s]; [now exists ""|].
  destruct (IH s) as [p Hp]. exists (String a p). cbn. now f_equal.
Qed.

Lemma drop_app (n : nat) (a b : string) :
  n <= String.length a -> drop n (a ++ b) = drop n a ++ b.
Proof.
  revert a; induction n as [|n IH]; intros a Hn; [reflexivity|].
  destruct a as [|x a]; cbn in *; [lia|]. apply IH. lia.
Qed.

(** The white space a string starts with is still there when something
    is appended. *)
Lemma space_len_app (a b : string) (k : nat) :
  space_len a = S k -> space_len (a ++ b) = S k.
Proof.
  destruct a as [|x [|y [|z a]]]; cbn [space_len append];
    repeat match goal with
           | |- context [if ?c then _ else _] => destruct c
           end; try discriminate; try (intros; assumption);
    destruct b as [|u [|v b]]; cbn;
    repeat match goal with
           | |- context [if ?c then _ else _] => destruct c
           end; try discriminate; intros; assumption.
Qed.

(** Nothing is left before the result of [lstrip]. *)
Lemma lstrip_no_leading (s : string) : space_len (lstrip s) = 0.
Proof.
  remember (String.length s) as n eqn:E. revert s E.
  induction n as [n IH] using lt_wf_ind. intros s E.
  rewrite lstrip_step. destruct (space_len s) as [|k] eqn:Hk; [exact Hk|].
  apply (IH (String.length (drop (S k) s))); [|reflexivity].
  pose proof (space_len_le s). rewrite length_drop. lia.
Qed.

Lemma lstrip_fixed (s : string) : space_len s = 0 -> lstrip s = s.
Proof. intros H. now rewrite lstrip_step, H. Qed.

Lemma lstrip_suffix (s : string) : exists p, s = p ++ lstrip s.
Proof.
  remember (String.length s) as n eqn:E. revert s E.
  induction n as [n IH] using lt_wf_ind. intros s E.
  rewrite lstrip_step. destruct (space_len s) as [|k] eqn:Hk; [now exists ""|].
  destruct (IH (String.length (drop (S k) s))) with (s := drop (S k) s)
    as [p Hp]; [|reflexivity|].
  - pose proof (space_len_le s). rewrite length_drop. lia.
  - destruct (drop_suffix (S k) s) as [q Hq].
    exists (q ++ p). rewrite PyStrFacts.app_assoc, <- Hp. exact Hq.
Qed.

Lemma all_space_app (a b : string) :
  all_space a = true -> all_space b = true -> all_space (a ++ b) = true.
Proof.
  remember (String.length a) as n eqn:E. revert a E.
  induction n as [n IH] using lt_wf_ind. intros a E Ha Hb.
  rewrite all_space_step in Ha.
  destruct (space_len a) as [|k] eqn:Hk.
  - destruct a; [exact Hb | discriminate].
  - rewrite all_space_step, (space_len_app a b k Hk).
    pose proof (space_len_le a).
    rewrite drop_app by lia.
    apply (IH (String.length (drop (S k) a))); try reflexivity; try assumption.
    rewrite length_drop. lia.
Qed.

(** What [rstrip] removes is white space. *)
Lemma rstrip_prefix (s : string) :
  exists q, s = rstrip s ++ q /\ all_space q = true.
Proof.
  induction s as [|a s IH].
  - exists "". split; [reflexivity | now rewrite all_space_step].
  - cbn [rstrip]. destruct (all_space (String a s)) eqn:E.
    + exists (String a s). split; [reflexivity | exact E].
    + destruct IH as (q & Hq & Hsp). exists q. split; [|exact Hsp].
      cbn. now f_equal.
Qed.

Lemma rstrip_idempotent (s : string) : rstrip (rstrip s) = rstrip s.
Proof.
  induction s as [|a s IH]; [reflexivity|].
  cbn [rstrip]. destruct (all_space (String a s)) eqn:E; [reflexivity|].
  cbn [rstrip]. rewrite IH.
  destruct (all_space (String a (rstrip s))) eqn:E'; [|reflexivity].
  destruct (rstrip_prefix s) as (q & Hq & Hsp).
  pose proof (all_space_app _ _ E' Hsp) as H.
  cbn [append] in H. rewrite <- Hq in H. congruence.
Qed.

Lemma rstrip_no_leading (s : string) :
  space_len s = 0 -> space_len (rstrip s) = 0.
Proof.
  intros Hs. destruct (space_len (rstrip s)) as [|k] eqn:E; [reflexivity|].
  destruct (rstrip_prefix s) as (q & Hq & _).
  pose proof (space_len_app _ q k E) as H. rewrite <- Hq in H. congruence.
Qed.

(** A stripped string has no white space left at either end. *)
Lemma strip_idempotent (s : string) : strip (strip s) = strip s.
Proof.
  unfold strip.
  rewrite (lstrip_fixed (rstrip (lstrip s)))
    by apply rstrip_no_leading, lstrip_no_leading.
  apply rstrip_idempotent.
Qed.

(** The result of [strip] is a part of the string. *)
Lemma strip_inside (s : string) : exists p q, s = p ++ strip s ++ q.
Proof.
  destruct (lstrip_suffix s) as [p Hp].
  destruct (rstrip_prefix (lstrip s)) as (q & Hq & _).
  exists p, q. unfold strip. now rewrite <- Hq.
Qed.

Lemma contains_strip (w s : string) :
  contains w s = false -> contains w (strip s) = false.
Proof.
  intros H. apply not_true_iff_false. intros Hc.
  apply not_true_iff_false in H. apply H.
  apply contains_iff in Hc as (a & b & Hab).
  destruct (strip_inside s) as (p & q & Hs).
  apply contains_iff. exists (p ++ a), (b ++ q).
  rewrite Hs, Hab. now rewrite !PyStrFacts.app_assoc.
Qed.

(** The first segment of a split at a character holds no such
    character. *)
Lemma split_from_head (c : ascii) (s : string) :
  forall cur, exists k tl,
    split_from (String c "") 0 cur s = (cur ++ k) :: tl /\
    contains (String c "") k = false.
Proof.
  induction s as [|a s IH]; intros cur.
  - exists "", []. split; [cbn; now rewrite PyStrFacts.app_nil_r | reflexivity].
  - cbn [split_from starts_with]. destruct (Ascii.eqb c a) eqn:E; cbn [andb].
    + exists "". eexists. split; [now rewrite PyStrFacts.app_nil_r | reflexivity].
    + destruct (IH (cur ++ String a "")) as (k & tl & Hk & Hc).
      exists (String a k), tl. split.
      * rewrite Hk, PyStrFacts.app_assoc. reflexivity.
      * cbn [contains starts_with]. rewrite E. cbn [andb orb]. exact Hc.
Qed.

End PyStripFacts.

(* ===================================================================== *)
(** * The hash key: what [get_hashkey] returns *)
(* ===================================================================== *)

Module HashKeyFacts.
Import PyStr PyStrip PyStripFacts HashKey.
#[local] Open Scope list_scope.

Lemma license_events (w : world) : events (get_license_info w) = [LicenseGet].
Proof.
  unfold get_license_info, get_or.
  destruct (license w) as [a|l|d]; try reflexivity.
  destruct (match PyDict.get "license" d with Some x => x | None => VDict [] end)
    as [a|l|d']; try reflexivity.
  cbn. destruct (Config.truthy _); reflexivity.
Qed.

Lemma license_outcome (w : world) (v : value) :
  outcome (get_license_info w) = inr v ->
  v = VScalar SNone \/ Config.truthy v = true.
Proof.
  unfold get_license_info, get_or.
  destruct (license w) as [a|l|d]; try discriminate.
  destruct (match PyDict.get "license" d with Some x => x | None => VDict [] end)
    as [a|l|d']; try discriminate.
  cbn. destruct (Config.truthy _) eqn:E; cbn; intros H; injection H as <-;
    [now right | now left].
Qed.

Lemma license_run (w : world) (r : exn + value) :
  outcome (get_license_info w) = r -> get_license_info w = ([LicenseGet], r).
Proof.
  intros <-. rewrite <- (license_events w).
  unfold events, outcome. now destruct (get_license_info w).
Qed.



(** X20.  Without license information [get_hashkey] returns [None]
    after the license request alone: no prompt, no call of the deployment
    API. *)
Theorem get_hashkey_without_license (w : world) :
  outcome (get_license_info w) = inr (VScalar SNone) ->
  get_hashkey w = ([LicenseGet], inr (VScalar SNone)).
Proof.
  intros H. unfold get_hashkey. now rewrite (license_run w _ H).
Qed.

Lemma get_hashkey_without_license_witness :
  get_hashkey (sample_world "" 200 (VScalar (SStr "owner")))
  = ([LicenseGet], inr (VScalar SNone)).
Proof. apply get_hashkey_without_license. reflexivity. Defined.

Lemma before_paren_no_paren (s : string) :
  contains "(" (before_paren s) = false.
Proof.
  unfold before_paren, split.
  destruct (split_from_head "("%char s "") as (k & tl & -> & Hk). exact Hk.
Qed.

Lemma before_paren_name (name rest : string) :
  contains "(" name = false ->
  before_paren (name ++ "(" ++ rest) = name.
Proof.
  intros Hn. unfold before_paren, split.
  rewrite (PyStrFacts.split_from_segment "("%char name "" _ Hn).
  now rewrite (PyStrFacts.split_from_sep "("%char).
Qed.

(** X21.  For a license issued to any other name, [get_hashkey] returns
    the name up to its first "(", stripped, without a prompt or a call of
    the deployment API; the result holds no "(", stripping it again
    changes nothing, and for a name of the form [name (rest] it is the
    stripped [name]. *)
Theorem get_hashkey_of_name (w : world) (s : string) :
  outcome (get_license_info w) = inr (VScalar (SStr s)) ->
  s <> "Elastic Cloud"%string ->
  get_hashkey w = ([LicenseGet], inr (VScalar (SStr (strip (before_paren s))))) /\
  contains "(" (strip (before_paren s)) = false /\
  strip (strip (before_paren s)) = strip (before_paren s) /\
  (forall name rest,
      s = (name ++ "(" ++ rest)%string -> contains "(" name = false ->
      strip (before_paren s) = strip name).
Proof.
  intros H Hs. split; [|split; [|split]].
  - unfold get_hashkey. rewrite (license_run w _ H). cbn [bind].
    destruct (license_outcome w _ H) as [E|E]; [discriminate|].
    rewrite E. cbn [negb].
    destruct (String.eqb_spec s "Elastic Cloud"); [contradiction | reflexivity].
  - apply contains_strip, before_paren_no_paren.
  - apply strip_idempotent.
  - intros name rest -> Hn. now rewrite before_paren_name.
Qed.

Lemma get_hashkey_of_name_witness :
  get_hashkey (sample_world "  Company XYZ (non-production environments)"
                            200 (VScalar SNone))
  = ([LicenseGet], inr (VScalar (SStr "Company XYZ"))).
Proof.
  destruct (get_hashkey_of_name
              (sample_world "  Company XYZ (non-production environments)"
                            200 (VScalar SNone))
              "  Company XYZ (non-production environments)"
              eq_refl ltac:(discriminate)) as (H & _).
  rewrite H. reflexivity.
Defined.

(** X22.  For a license issued to "Elastic Cloud", a list request that
    is not answered with status 200 ends [get_hashkey] in [CloudAPIError]
    right after the prompt and that one request. *)
Theorem get_hashkey_authentication_failed (w : world) :
  outcome (get_license_info w) = inr (VScalar (SStr "Elastic Cloud")) ->
  status_code (deployments w) <> 200%Z ->
  get_hashkey w
  = ([LicenseGet; Prompt; ListDeployments (api_key w)],
     inl (CloudAPIError authentication_failed)).
Proof.
  intros H Hst. unfold get_hashkey. rewrite (license_run w _ H).
  cbn [bind Config.truthy PyStr.truthy negb String.eqb Ascii.eqb Bool.eqb andb].
  unfold cloud_customer_id.
  destruct (Z.eqb_spec (status_code (deployments w)) 200); [contradiction|].
  reflexivity.
Qed.

Lemma get_hashkey_authentication_failed_witness :
  get_hashkey (sample_world "Elastic Cloud" 401 (VScalar (SStr "owner")))
  = ([LicenseGet; Prompt; ListDeployments "secret"],
     inl (CloudAPIError authentication_failed)).
Proof.
  apply (get_hashkey_authentication_failed
           (sample_world "Elastic Cloud" 401 (VScalar (SStr "owner"))));
    [reflexivity | discriminate].
Defined.

Lemma cloud_success (w : world) (v : value) :
  outcome (cloud_customer_id w) = inr v ->
  Config.truthy v = true /\
  status_code (deployments w) = 200%Z /\
  exists dep_id,
    events (cloud_customer_id w)
    = [Prompt; ListDeployments (api_key w); GetDeployment (api_key w) dep_id] /\
    status_code (deployment w dep_id) = 200%Z.
Proof.
  unfold cloud_customer_id, json_loads, item, is_empty, first_item, get_or.
  intros H.
  destruct (Z.eqb_spec (status_code (deployments w)) 200) as [Hst|Hst];
    cbn in H |- *; [|discriminate].
  destruct (body (deployments w)) as [[a|l|d]|]; cbn in H |- *; try discriminate.
  destruct (PyDict.get "deployments" d) as [deps|]; cbn in H |- *;
    try discriminate.
  destruct deps as [[[|c s]|n|b|]|[|first tl]|[|kv d']]; cbn in H |- *;
    try discriminate.
  destruct first as [a|l|fd]; cbn in H |- *; try discriminate.
  destruct (PyDict.get "id" fd) as [dep_id|]; cbn in H |- *; try discriminate.
  destruct (Z.eqb_spec (status_code (deployment w dep_id)) 200) as [Hst2|Hst2];
    cbn in H |- *; [|discriminate].
  destruct (body (deployment w dep_id)) as [[a|l|dd]|]; cbn in H |- *;
    try discriminate.
  destruct (match PyDict.get "metadata" dd with Some x => x | None => VDict [] end)
    as [a|l|md]; cbn in H |- *; try discriminate.
  destruct (Config.truthy
              match PyDict.get "owner_id" md with
              | Some x => x
              | None => VScalar SNone
              end) eqn:Et; cbn in H |- *; [|discriminate].
  injection H as <-. split; [exact Et|]. split; [exact Hst|].
  exists dep_id. split; [reflexivity | exact Hst2].
Qed.

Lemma get_hashkey_cloud (w : world) :
  outcome (get_license_info w) = inr (VScalar (SStr "Elastic Cloud")) ->
  get_hashkey w
  = (LicenseGet :: events (cloud_customer_id w), outcome (cloud_customer_id w)).
Proof.
  intros H. unfold get_hashkey. rewrite (license_run w _ H).
  cbn [bind Config.truthy PyStr.truthy negb String.eqb Ascii.eqb Bool.eqb andb].
  unfold events, outcome. now destruct (cloud_customer_id w).
Qed.

(** X23.  For a license issued to "Elastic Cloud", a value returned by
    [get_hashkey] is truthy, and it was obtained with one prompt, the
    list request and the request for one deployment, both answered with
    status 200. *)
Theorem get_hashkey_cloud_success (w : world) (v : value) :
  outcome (get_license_info w) = inr (VScalar (SStr "Elastic Cloud")) ->
  outcome (get_hashkey w) = inr v ->
  Config.truthy v = true /\
  status_code (deployments w) = 200%Z /\
  exists dep_id,
    events (get_hashkey w)
    = [LicenseGet; Prompt; ListDeployments (api_key w);
       GetDeployment (api_key w) dep_id] /\
    status_code (deployment w dep_id) = 200%Z.
Proof.
  intros Hl Hv. rewrite (get_hashkey_cloud w Hl) in Hv |- *.
  cbn [outcome events fst snd] in Hv |- *.
  destruct (cloud_success w v Hv) as (Ht & Hst & dep_id & Hev & Hst2).
  split; [exact Ht|]. split; [exact Hst|].
  exists dep_id. split; [now rewrite Hev | exact Hst2].
Qed.

Lemma get_hashkey_cloud_success_witness :
  Config.truthy (VScalar (SStr "owner")) = true /\
  exists dep_id,
    events (get_hashkey (sample_world "Elastic Cloud" 200 (VScalar (SStr "owner"))))
    = [LicenseGet; Prompt; ListDeployments "secret"; GetDeployment "secret" dep_id] /\
    status_code (deployment (sample_world "Elastic Cloud" 200
                                          (VScalar (SStr "owner"))) dep_id)
    = 200%Z.
Proof.
  destruct (get_hashkey_cloud_success
              (sample_world "Elastic Cloud" 200 (VScalar (SStr "owner")))
              (VScalar (SStr "owner")) eq_refl eq_refl)
    as (Ht & _ & dep_id & Hev & Hst).
  split; [exact Ht|]. exists dep_id. split; [exact Hev | exact Hst].
Defined.

(** X24.  Only the first deployment of the list is looked at: dropping
    the others from the answer of the list request changes nothing, the
    events included. *)
Theorem get_hashkey_first_deployment_only
        (w : world) (listing : dict) (d0 : value) (others : list value) :
  body (deployments w) = Some (VDict listing) ->
  PyDict.get "deployments" listing = Some (VList (d0 :: others)) ->
  get_hashkey w
  = get_hashkey
      (with_listing w (PyDict.set "deployments" (VList [d0]) listing)).
Proof.
  intros Hb Hd.
  assert (Hc : cloud_customer_id w
               = cloud_customer_id
                   (with_listing w
                      (PyDict.set "deployments" (VList [d0]) listing))).
  { unfold cloud_customer_id, json_loads, item, with_listing.
    cbn [api_key deployments deployment status_code body].
    rewrite Hb. cbn [bind ret].
    rewrite Hd, FlattenLaws.get_set_eq. reflexivity. }
  unfold get_hashkey. rewrite <- Hc. reflexivity.
Qed.

Lemma get_hashkey_first_deployment_only_witness :
  get_hashkey (sample_world "Elastic Cloud" 200 (VScalar (SStr "owner")))
  = get_hashkey
      (with_listing (sample_world "Elastic Cloud" 200 (VScalar (SStr "owner")))
         [("deployments", VList [VDict [("id", VScalar (SStr "d1"))]])]).
Proof.
  apply (get_hashkey_first_deployment_only
           (sample_world "Elastic Cloud" 200 (VScalar (SStr "owner")))
           [("deployments", VList [VDict [("id", VScalar (SStr "d1"))];
                                   VDict [("id", VScalar (SStr "d2"))]])]
           (VDict [("id", VScalar (SStr "d1"))])
           [VDict [("id", VScalar (SStr "d2"))]]); reflexivity.
Defined.

End HashKeyFacts.

(* ===================================================================== *)
(** * QueryBuilder: falsy arguments of [composite_query] *)
(* ===================================================================== *)

Module QueryFacts.
Import Query.



End QueryFacts.
